(** * The statement builder of the SSA layer (ssa/stmt_builder.go)

    A shallow embedding of the instruction-emission layer: logical basic
    blocks, the builder with its insertion cursor, the control-transfer
    operations, panic and goroutine lowering, and phi wiring.  The LLVM
    binding the Go code drives is modelled as explicit state: physical blocks
    are instruction lists, instruction handles are (parent, identity) pairs,
    and the builder's insertion point is a position in one physical block. *)

From Stdlib Require Import ZArith List String Ascii Bool Lia.
From stdpp Require Import base option list gmap.
Import ListNotations.

Set Warnings "-register-all".

Local Open Scope Z_scope.
Local Open Scope nat_scope.
Local Open Scope list_scope.

(** ** Go strings: [strings.HasSuffix] *)

Fixpoint str_drop (n : nat) (s : string) : string :=
  match n, s with
  | O, _ => s
  | S n', String _ t => str_drop n' t
  | S _, EmptyString => EmptyString
  end.

(** [len(s) >= len(suffix) && s[len(s)-len(suffix):] == suffix] *)
Definition HasSuffix (s suffix : string) : bool :=
  (String.length suffix <=? String.length s) &&
  String.eqb (str_drop (String.length s - String.length suffix) s) suffix.

(** ** Outcomes of a Go computation *)

Inductive FaultKind : Type :=
| NilDeref          (* a nil Go pointer is dereferenced *)
| IndexOutOfRange   (* a Go index expression leaves its range *)
| NullHandle        (* the backend reads through the null handle *)
| DanglingHandle    (* the backend reads through a handle of nothing in the module *)
| BadCast.          (* the backend is handed a value of the wrong class *)

Inductive Outcome (A : Type) : Type :=
| Ok (a : A)
| Panicked (msg : string)   (* an explicit [panic(msg)] of the layer *)
| Fault (k : FaultKind)     (* a run-time error of Go or of the backend *)
| OutOfFuel.                (* a loop was cut off by the model's bound *)

Arguments Ok {A} a.
Arguments Panicked {A} msg.
Arguments Fault {A} k.
Arguments OutOfFuel {A}.

(** ** The backend (github.com/goplus/llvm), as far as the layer uses it

    The binding passes its handles on to the C interface, which reads
    through them: a call on the null handle, or on a handle of the wrong
    class, has no result and is recorded as a fault. *)

(** [llvm.Value]: a nullable handle. An instruction is named by its parent
    physical block and its identity, which insertions around it never change.
    The other values are constants: globals, plain constants, the poison
    value an aggregate return starts from, and the aggregate constant the
    backend folds [insertvalue agg, val, i] into when [agg] and [val] are
    constants. *)
Inductive Value : Type :=
| VNil
| VInst (parent : nat) (uid : nat)
| VGlobal (name : string)
| VConst (n : Z)
| VPoison
| VInsert (agg val : Value) (i : Z).

Inductive Opcode : Type :=
| OpNone        (* what the backend answers for a value that is no instruction *)
| OpRet | OpBr | OpCall | OpPHI | OpUnreachable | OpExtractValue | OpInsertValue
| OpStore | OpLoad | OpOther (code : nat).

(** [ssa.Type], reduced to what return packing and extraction look at. *)
Inductive Type_ : Type :=
| TVoid
| TBasic (name : string)
| TTuple (elems : list Type_)
| TSig (params results : list Type_).

(** What an instruction is. *)
Inductive InstrKind : Type :=
| IRetVoid
| IRet (v : Value)
| IInsertValue (agg val : Value) (i : Z)
| IBr (dest : nat)
| ICondBr (cond : Value) (thenb elseb : nat)
| ICall (callee : Value) (args : list Value)
| IUnreachable
| IPhi (t : Type_) (incoming : list (Value * nat))
| IExtractValue (agg : Value) (i : Z)
| IOther (op : Opcode) (ops : list Value).

Record Instr : Type := mkInstr {
  uid : nat;
  iname : string;
  kind : InstrKind
}.

Definition opcode_of (k : InstrKind) : Opcode :=
  match k with
  | IRetVoid | IRet _ => OpRet
  | IInsertValue _ _ _ => OpInsertValue
  | IBr _ | ICondBr _ _ _ => OpBr
  | ICall _ _ => OpCall
  | IUnreachable => OpUnreachable
  | IPhi _ _ => OpPHI
  | IExtractValue _ _ => OpExtractValue
  | IOther op _ => op
  end.

(** The operand list as the backend numbers it: a call holds its arguments
    first and its callee last, so a call without arguments has one operand. *)
Definition operands_of (k : InstrKind) : list Value :=
  match k with
  | IRetVoid | IUnreachable | IBr _ => []
  | IRet v => [v]
  | IInsertValue a v _ => [a; v]
  | ICondBr c _ _ => [c]
  | ICall callee args => args ++ [callee]
  | IPhi _ inc => map fst inc
  | IExtractValue a _ => [a]
  | IOther _ ops => ops
  end.

(** The builder's insertion point: at the end of a physical block, or before
    one of its instructions. *)
Inductive InsertPt : Type :=
| IP_end (bb : nat)
| IP_before (bb : nat) (u : nat).

Definition ip_block (p : InsertPt) : nat :=
  match p with IP_end bb => bb | IP_before bb _ => bb end.

Record Module_ : Type := mkModule {
  bbs : gmap nat (list Instr);   (* physical blocks *)
  next_uid : nat                 (* identity of the next instruction created *)
}.

(** ** The Go side: typed values, functions, packages, logical blocks *)

(** [ssa.Expr]: a backend value paired with its type. *)
Record Expr : Type := mkExpr {
  impl : Value;
  typ : Type_
}.

(** [ssa.Function] and [ssa.BasicBlock] are pointers; they are compared and
    dereferenced as addresses. *)
Definition Function := nat.
Definition BasicBlock := nat.

(** What the layer reads of a function: the declared results of the
    signature held in its [raw.Type]. *)
Record aFunction : Type := mkFunction {
  Results : list Type_
}.

(** Modelled from the spec: the runtime-function registry of a package
    ([rtFunc], ssa/package.go, is not under src/): a lookup by logical name
    returning a callable typed value. *)
Record aPackage : Type := mkPackage {
  rtFunc : string -> Expr
}.
Definition Package := aPackage.

Record aBasicBlock : Type := mkBasicBlock {
  first : nat;   (* a Go SSA basic block may have multiple LLVM basic blocks *)
  last : nat;
  fn : Function;
  idx : Z
}.

Record aBuilder : Type := mkBuilder {
  b_impl : InsertPt;
  blk : BasicBlock;
  Func : Function;
  Pkg : Package;
  Prog : nat
}.

(** One line of the debug trace ([log.Printf] under [debugInstr]). *)
Inductive LogEntry : Type :=
| LogBlock (i : Z)
| LogPanic (v : Value)
| LogCall (what : string) (f : Expr) (args : list Expr)
| LogReturn (vs : list Value)
| LogExtract (x : Value) (i : Z)
| LogJump (i : Z)
| LogIf (cond : Value) (t e : Z).

Record State : Type := mkState {
  md : Module_;                   (* the backend module *)
  heap : gmap nat aBasicBlock;    (* the allocated logical blocks *)
  funcs : gmap nat aFunction;     (* the allocated functions *)
  bld : aBuilder;                 (* the builder the operations are called on *)
  debugInstr : bool;              (* the package's debug switch *)
  log : list LogEntry
}.

Definition set_md (m : Module_) (s : State) : State :=
  mkState m (heap s) (funcs s) (bld s) (debugInstr s) (log s).
Definition set_bld (b : aBuilder) (s : State) : State :=
  mkState (md s) (heap s) (funcs s) b (debugInstr s) (log s).
Definition set_log (l : list LogEntry) (s : State) : State :=
  mkState (md s) (heap s) (funcs s) (bld s) (debugInstr s) l.

Definition with_impl (p : InsertPt) (b : aBuilder) : aBuilder :=
  mkBuilder p (blk b) (Func b) (Pkg b) (Prog b).
Definition with_blk (k : BasicBlock) (b : aBuilder) : aBuilder :=
  mkBuilder (b_impl b) k (Func b) (Pkg b) (Prog b).

(** ** The monad of builder operations *)

Definition M (A : Type) : Type := State -> Outcome (A * State).

Definition ret {A} (a : A) : M A := fun s => Ok (a, s).

Definition bind {A B} (m : M A) (k : A -> M B) : M B :=
  fun s =>
    match m s with
    | Ok (a, s') => k a s'
    | Panicked msg => Panicked msg
    | Fault f => Fault f
    | OutOfFuel => OutOfFuel
    end.

Declare Scope go_scope.
Delimit Scope go_scope with go.
Notation "x <- m ;; k" := (bind m (fun x => k))
  (at level 100, m at next level, right associativity) : go_scope.
Notation "m ;;; k" := (bind m (fun _ => k))
  (at level 100, right associativity) : go_scope.
Local Open Scope go_scope.

Definition panic {A} (msg : string) : M A := fun _ => Panicked msg.
Definition fault {A} (k : FaultKind) : M A := fun _ => Fault k.
Definition diverge {A} : M A := fun _ => OutOfFuel.
Definition get {A} (f : State -> A) : M A := fun s => Ok (f s, s).
Definition modify (f : State -> State) : M unit := fun s => Ok (tt, f s).

(** [log.Printf(...)]: one more line of the trace. *)
Definition logf (e : LogEntry) : M unit :=
  modify (fun s => set_log (log s ++ [e]) s).

(** [if debugInstr { ... }] *)
Definition when_debug (m : M unit) : M unit :=
  d <- get debugInstr ;; if d then m else ret tt.

(** ** Backend primitives *)

Definition get_block (bb : nat) : M (list Instr) :=
  fun s =>
    match bbs (md s) !! bb with
    | Some l => Ok (l, s)
    | None => Fault DanglingHandle
    end.

Definition handle_of (bb : nat) (o : option Instr) : Value :=
  match o with
  | Some i => VInst bb (uid i)
  | None => VNil
  end.

Fixpoint last_instr (l : list Instr) : option Instr :=
  match l with
  | [] => None
  | [x] => Some x
  | _ :: tl => last_instr tl
  end.

Definition find_instr (u : nat) (l : list Instr) : option Instr :=
  List.find (fun x => uid x =? u) l.

(** The instruction following the one of identity [u]; [None] when the block
    holds no such instruction. *)
Fixpoint next_in (u : nat) (l : list Instr) : option (option Instr) :=
  match l with
  | [] => None
  | x :: tl => if uid x =? u then Some (head tl) else next_in u tl
  end.

(** Reads the instruction behind a handle. *)
Definition get_instr (v : Value) : M Instr :=
  match v with
  | VNil => fault NullHandle
  | VInst bb u =>
      l <- get_block bb ;;
      match find_instr u l with
      | Some i => ret i
      | None => fault DanglingHandle
      end
  | VGlobal _ | VConst _ | VPoison | VInsert _ _ _ => fault BadCast
  end.

(** [bb.FirstInstruction()]: the null handle for an empty block. *)
Definition FirstInstruction (bb : nat) : M Value :=
  l <- get_block bb ;; ret (handle_of bb (head l)).

(** [bb.LastInstruction()] *)
Definition LastInstruction (bb : nat) : M Value :=
  l <- get_block bb ;; ret (handle_of bb (last_instr l)).

(** [llvm.NextInstruction(v)]: the null handle after the last instruction. *)
Definition NextInstruction (v : Value) : M Value :=
  match v with
  | VNil => fault NullHandle
  | VInst bb u =>
      l <- get_block bb ;;
      match next_in u l with
      | Some o => ret (handle_of bb o)
      | None => fault DanglingHandle
      end
  | VGlobal _ | VConst _ | VPoison | VInsert _ _ _ => fault BadCast
  end.

(** [v.InstructionOpcode()] *)
Definition InstructionOpcode (v : Value) : M Opcode :=
  match v with
  | VGlobal _ | VConst _ | VPoison | VInsert _ _ _ => ret OpNone
  | _ => i <- get_instr v ;; ret (opcode_of (kind i))
  end.

(** The fields a folded aggregate holds. *)
Fixpoint fields_of (v : Value) : list Value :=
  match v with
  | VInsert agg val _ => fields_of agg ++ [val]
  | _ => []
  end.

(** [v.OperandsCount()] *)
Definition OperandsCount (v : Value) : M Z :=
  match v with
  | VGlobal _ | VConst _ | VPoison => ret 0%Z
  | VInsert _ _ _ => ret (Z.of_nat (length (fields_of v)))
  | _ => i <- get_instr v ;; ret (Z.of_nat (length (operands_of (kind i))))
  end.

(** [v.Operand(i)] *)
Definition Operand (v : Value) (i : Z) : M Value :=
  ins <- get_instr v ;;
  if (i <? 0)%Z then fault IndexOutOfRange
  else match nth_error (operands_of (kind ins)) (Z.to_nat i) with
       | Some o => ret o
       | None => fault IndexOutOfRange
       end.

(** [v.Name()] *)
Definition Name (v : Value) : M string :=
  match v with
  | VGlobal n => ret n
  | VConst _ | VPoison | VInsert _ _ _ => ret EmptyString
  | _ => i <- get_instr v ;; ret (iname i)
  end.

Definition set_impl (p : InsertPt) : M unit :=
  modify (fun s => set_bld (with_impl p (bld s)) s).

(** [b.impl.SetInsertPointAtEnd(bb)] *)
Definition SetInsertPointAtEnd (bb : nat) : M unit :=
  get_block bb ;;; set_impl (IP_end bb).

(** [b.impl.SetInsertPointBefore(instr)] *)
Definition SetInsertPointBefore (instr : Value) : M unit :=
  get_instr instr ;;;
  match instr with
  | VInst bb u => set_impl (IP_before bb u)
  | _ => fault BadCast
  end.

(** Where the insertion point cuts its block: the instructions before it and
    the instructions after it. *)
Fixpoint split_before (u : nat) (l : list Instr) : option (list Instr * list Instr) :=
  match l with
  | [] => None
  | x :: tl =>
      if uid x =? u then Some ([], x :: tl)
      else match split_before u tl with
           | Some (pre, post) => Some (x :: pre, post)
           | None => None
           end
  end.

Definition split_at (p : InsertPt) (l : list Instr) : option (list Instr * list Instr) :=
  match p with
  | IP_end _ => Some (l, [])
  | IP_before _ u => split_before u l
  end.

(** Every [Create...] of the backend builder that makes an instruction: the
    fresh instruction is linked in at the insertion point, which stays where
    it is (before the same instruction, or at the end). *)
Definition emit (k : InstrKind) : M Value :=
  fun s =>
    let p := b_impl (bld s) in
    let bb := ip_block p in
    match bbs (md s) !! bb with
    | None => Fault DanglingHandle
    | Some l =>
        match split_at p l with
        | None => Fault DanglingHandle
        | Some (pre, post) =>
            let i := mkInstr (next_uid (md s)) EmptyString k in
            Ok (VInst bb (uid i),
                set_md (mkModule (<[bb := pre ++ i :: post]> (bbs (md s)))
                                 (S (next_uid (md s)))) s)
        end
    end.

(** [emit] for the calls that ask for a name, which the instruction is
    recorded under (the backend tells the instructions of one name in a
    function apart by a number after it, which is no part of the record). *)
Definition emit_named (name : string) (k : InstrKind) : M Value :=
  fun s =>
    let p := b_impl (bld s) in
    let bb := ip_block p in
    match bbs (md s) !! bb with
    | None => Fault DanglingHandle
    | Some l =>
        match split_at p l with
        | None => Fault DanglingHandle
        | Some (pre, post) =>
            let i := mkInstr (next_uid (md s)) name k in
            Ok (VInst bb (uid i),
                set_md (mkModule (<[bb := pre ++ i :: post]> (bbs (md s)))
                                 (S (next_uid (md s)))) s)
        end
    end.

Definition is_constant (v : Value) : bool :=
  match v with
  | VNil | VInst _ _ => false
  | VGlobal _ | VConst _ | VPoison | VInsert _ _ _ => true
  end.

(** The backend builder's [CreateInsertValue]: its constant folder answers
    when the aggregate and the value are both constants, and then no
    instruction is made. *)
Definition CreateInsertValue (agg val : Value) (i : Z) (name : string) : M Value :=
  match agg, val with
  | VNil, _ | _, VNil => fault NullHandle
  | _, _ =>
      if is_constant agg && is_constant val then ret (VInsert agg val i)
      else emit_named name (IInsertValue agg val i)
  end.

(** [for i := 0; i != N; i++ { V = CreateInsertValue(V, retVals[i], i, "mrv") }] *)
Fixpoint aggregate_loop (V : Value) (i : Z) (retVals : list Value) : M Value :=
  match retVals with
  | [] => ret V
  | v :: rest =>
      V' <- CreateInsertValue V v i "mrv" ;;
      aggregate_loop V' (i + 1)%Z rest
  end.

Definition CreateRetVoid : M Value := emit IRetVoid.
Definition CreateRet (v : Value) : M Value := emit (IRet v).

(** [b.impl.CreateAggregateRet(vs)]: the backend starts from the poison value
    of the return type, inserts the values one by one, and returns the
    aggregate it arrives at. *)
Definition CreateAggregateRet (vs : list Value) : M Value :=
  V <- aggregate_loop VPoison 0%Z vs ;;
  emit (IRet V).
Definition CreateBr (bb : nat) : M Value := emit (IBr bb).
Definition CreateCondBr (c : Value) (t e : nat) : M Value := emit (ICondBr c t e).
Definition CreateUnreachable : M Value := emit IUnreachable.
Definition CreateCall (f : Value) (args : list Value) : M Value := emit (ICall f args).
Definition CreatePHI (t : Type_) : M Value := emit (IPhi t []).
Definition CreateExtractValue (agg : Value) (i : Z) : M Value := emit (IExtractValue agg i).

(** Appends incoming edges to the phi of identity [u]. *)
Fixpoint add_incoming_in (u : nat) (new : list (Value * nat)) (l : list Instr)
  : option (list Instr) :=
  match l with
  | [] => None
  | x :: tl =>
      if uid x =? u then
        match kind x with
        | IPhi t inc => Some (mkInstr (uid x) (iname x) (IPhi t (inc ++ new)) :: tl)
        | _ => None
        end
      else match add_incoming_in u new tl with
           | Some tl' => Some (x :: tl')
           | None => None
           end
  end.

(** [phi.AddIncoming(vals, blocks)]: the binding takes the address of
    [blocks[0]], then hands [len(vals)] pairs to the phi. *)
Definition llvm_AddIncoming (phi : Value) (vals : list Value) (blocks : list nat) : M unit :=
  match blocks with
  | [] => fault IndexOutOfRange
  | _ =>
      match phi with
      | VNil => fault NullHandle
      | VInst bb u =>
          l <- get_block bb ;;
          match add_incoming_in u (combine vals blocks) l with
          | Some l' =>
              modify (fun s => set_md (mkModule (<[bb := l']> (bbs (md s)))
                                                (next_uid (md s))) s)
          | None => fault BadCast
          end
      | VGlobal _ | VConst _ | VPoison | VInsert _ _ _ => fault BadCast
      end
  end.

(** ** Logical blocks *)

(** Dereferences a [BasicBlock] pointer. *)
Definition deref (p : BasicBlock) : M aBasicBlock :=
  fun s =>
    match heap s !! p with
    | Some r => Ok (r, s)
    | None => Fault NilDeref
    end.

(** Parent returns the function to which the basic block belongs. *)
Definition Parent (p : BasicBlock) : M Function :=
  r <- deref p ;; ret (fn r).

(** Index returns the index of the basic block in the parent function. *)
Definition Index (p : BasicBlock) : M Z :=
  r <- deref p ;; ret (idx r).

(** ** Insertion points *)

Definition InsertPoint := Z.
Abbreviation AtEnd := (0%Z) (only parsing).
Abbreviation AtStart := (1%Z) (only parsing).
Abbreviation BeforeLast := (2%Z) (only parsing).
Abbreviation afterInit := (3%Z) (only parsing).

Definition init_suffix : string := ".init".

Definition notInit (instr : Value) : M bool :=
  op <- InstructionOpcode instr ;;
  match op with
  | OpCall =>
      n <- OperandsCount instr ;;
      if (n =? 1)%Z then
        fn <- Operand instr 0 ;;
        nm <- Name fn ;;
        ret (negb (HasSuffix nm init_suffix))
      else ret true
  | _ => ret true
  end.

(** The body of the [for] loop; [fuel] bounds the number of rounds. *)
Fixpoint instrAfterInit_loop (fuel : nat) (instr : Value) : M Value :=
  match fuel with
  | O => diverge
  | S fuel' =>
      instr <- NextInstruction instr ;;
      b <- notInit instr ;;
      if b then ret instr else instrAfterInit_loop fuel' instr
  end.

(** Every round moves to a later instruction of the block, so one round more
    than the block has instructions is never used up
    (see [instrAfterInit_loop_fuel]). *)
Definition instrAfterInit (blk : nat) : M Value :=
  instr <- FirstInstruction blk ;;
  l <- get_block blk ;;
  instrAfterInit_loop (S (length l)) instr.

Definition set_blk (k : BasicBlock) : M unit :=
  modify (fun s => set_bld (with_blk k (bld s)) s).

(** SetBlockEx sets blk as current basic block and pos as its insert point. *)
Definition SetBlockEx (blk : BasicBlock) (pos : InsertPoint) (setBlk : bool) : M unit :=
  f <- get (fun s => Func (bld s)) ;;
  r <- deref blk ;;
  if negb (f =? fn r) then panic "mismatched function"
  else
    match pos with
    | AtEnd => SetInsertPointAtEnd (last r)
    | AtStart => i <- FirstInstruction (first r) ;; SetInsertPointBefore i
    | BeforeLast => i <- LastInstruction (last r) ;; SetInsertPointBefore i
    | afterInit => i <- instrAfterInit (first r) ;; SetInsertPointBefore i
    | _ => panic "SetBlockEx: invalid pos"
    end ;;;
    if setBlk then set_blk blk else ret tt.

(** SetBlock means SetBlockEx(blk, AtEnd, true). *)
Definition SetBlock (blk : BasicBlock) : M unit :=
  when_debug (r <- deref blk ;; logf (LogBlock (idx r))) ;;;
  SetBlockEx blk AtEnd true.

(** ** Absent collaborators *)

Definition result_type (t : Type_) : Type_ :=
  match t with
  | TSig _ [] => TVoid
  | TSig _ [r] => r
  | TSig _ rs => TTuple rs
  | _ => TVoid
  end.

(** Modelled from the spec: call emission ([Call], ssa/expr.go, is not under
    src/). Sections 4.5 and 6 give its contract: emit a call with these
    arguments; the result is the typed value of the call instruction. *)
Definition Call (fn : Expr) (args : list Expr) : M Expr :=
  v <- CreateCall (impl fn) (map impl args) ;;
  ret (mkExpr v (result_type (typ fn))).

Definition arity_of (t : Type_) : list Type_ :=
  match t with
  | TTuple ts => ts
  | _ => []
  end.

(** Modelled from the spec: component extraction ([getField], ssa/expr.go, is
    not under src/). Section 4.6: yields the component at [i]; the index must
    be within the arity of the multi-result type, out of range is fatal. *)
Definition getField (x : Expr) (i : Z) : M Expr :=
  if (i <? 0)%Z then panic "getField: index out of range"
  else match nth_error (arity_of (typ x)) (Z.to_nat i) with
       | Some t => v <- CreateExtractValue (impl x) i ;; ret (mkExpr v t)
       | None => panic "getField: index out of range"
       end.

(** [logCall], ssa/expr.go: one trace line for a call-like instruction. *)
Definition logCall (what : string) (fn : Expr) (args : list Expr) : M unit :=
  logf (LogCall what fn args).

(** The declared results of the builder's function. *)
Definition Func_Results : M (list Type_) :=
  fun s =>
    match funcs s !! Func (bld s) with
    | Some f => Ok (Results f, s)
    | None => Fault NilDeref
    end.

(** [tuple.At(i)] of go/types, which keeps a tuple without variables as the
    nil tuple: [At] reads through it. *)
Definition At (t : list Type_) (i : nat) : M Type_ :=
  match t with
  | [] => fault NilDeref
  | _ =>
      match nth_error t i with
      | Some ty => ret ty
      | None => fault IndexOutOfRange
      end
  end.

(** ** Emission operations *)

Definition Unreachable : M unit :=
  CreateUnreachable ;;; ret tt.

(** Panic emits a panic instruction. *)
Definition Panic (v : Expr) : M unit :=
  when_debug (logf (LogPanic (impl v))) ;;;
  pkg <- get (fun s => Pkg (bld s)) ;;
  Call (rtFunc pkg "TracePanic") [v] ;;;
  CreateUnreachable ;;;
  ret tt.

(** The Go instruction creates a new goroutine and calls the specified
    function within it. *)
Definition Go (fn : Expr) (args : list Expr) : M unit :=
  when_debug (logCall "Go" fn args) ;;;
  Call fn args ;;;
  ret tt.

(** The Extract instruction yields component Index of Tuple. *)
Definition Extract (x : Expr) (i : Z) : M Expr :=
  when_debug (logf (LogExtract (impl x) i)) ;;;
  getField x i.

(** Jump emits a jump instruction. *)
Definition Jump (jmpb : BasicBlock) : M unit :=
  f <- get (fun s => Func (bld s)) ;;
  r <- deref jmpb ;;
  if negb (f =? fn r) then panic "mismatched function"
  else
    when_debug (logf (LogJump (idx r))) ;;;
    CreateBr (first r) ;;;
    ret tt.

(** If emits an if instruction. *)
Definition If (cond : Expr) (thenb elseb : BasicBlock) : M unit :=
  f <- get (fun s => Func (bld s)) ;;
  t <- deref thenb ;;
  if negb (f =? fn t) then panic "mismatched function"
  else
    e <- deref elseb ;;
    if negb (f =? fn e) then panic "mismatched function"
    else
      when_debug (logf (LogIf (impl cond) (idx t) (idx e))) ;;;
      CreateCondBr (impl cond) (first t) (first e) ;;;
      ret tt.

(** Phi represents a phi node. *)
Record Phi : Type := mkPhi {
  Phi_Expr : Expr
}.

(** Phi returns a phi node. *)
Definition Builder_Phi (t : Type_) : M Phi :=
  phi <- CreatePHI t ;;
  ret (mkPhi (mkExpr phi t)).

Fixpoint llvmPredBlocks (preds : list BasicBlock) : M (list nat) :=
  match preds with
  | [] => ret []
  | v :: rest =>
      r <- deref v ;;
      bs <- llvmPredBlocks rest ;;
      ret (last r :: bs)
  end.

(** [for iblk, blk := range preds { vals[iblk] = f(iblk, blk).impl }] *)
Fixpoint incoming_vals (f : Z -> BasicBlock -> M Expr) (iblk : Z)
    (preds : list BasicBlock) : M (list Value) :=
  match preds with
  | [] => ret []
  | blk :: rest =>
      e <- f iblk blk ;;
      vals <- incoming_vals f (iblk + 1)%Z rest ;;
      ret (impl e :: vals)
  end.

(** AddIncoming adds incoming values to a phi node. *)
Definition AddIncoming (p : Phi) (preds : list BasicBlock)
    (f : Z -> BasicBlock -> M Expr) : M unit :=
  bs <- llvmPredBlocks preds ;;
  vals <- incoming_vals f 0%Z preds ;;
  llvm_AddIncoming (impl (Phi_Expr p)) vals bs.

(** ** Return, over the absent coercion *)

Section WithCoercion.

(** [checkExpr(v, t, b)], ssa/expr.go, is not under src/: the coercion of a
    typed value to a declared type. It runs on the builder, so it may emit
    and it may fail. *)
Variable checkExpr : Expr -> Type_ -> M Expr.

(** Modelled from the spec: [llvmParams], ssa/expr.go, is not under src/.
    Section 4.4: each value is coerced on its own, in order, to the
    declared type at its position; a value without a declared type at its
    position is passed as it is. *)
Fixpoint llvmParams (base : nat) (vals : list Expr) (params : list Type_)
  : M (list Value) :=
  match vals with
  | [] => ret []
  | v :: rest =>
      v' <- match nth_error params base with
            | Some t => checkExpr v t
            | None => ret v
            end ;;
      vs <- llvmParams (S base) rest params ;;
      ret (impl v' :: vs)
  end.

(** Return emits a return instruction. *)
Definition Return (results : list Expr) : M unit :=
  when_debug (logf (LogReturn (map impl results))) ;;;
  match results with
  | [] => CreateRetVoid ;;; ret tt
  | [r0] =>
      tret <- Func_Results ;;
      raw <- At tret 0 ;;
      r <- checkExpr r0 raw ;;
      CreateRet (impl r) ;;;
      ret tt
  | _ =>
      tret <- Func_Results ;;
      vs <- llvmParams 0 results tret ;;
      CreateAggregateRet vs ;;;
      ret tt
  end.

End WithCoercion.

(** ** The initializer prologue, as the specification words it *)

(** The symbol name a value refers to, when the backend can read one. *)
Definition value_name (s : State) (v : Value) : option string :=
  match Name v s with
  | Ok (nm, _) => Some nm
  | _ => None
  end.

(** A call instruction with exactly one operand whose referenced symbol name
    ends with the initializer suffix. *)
Definition init_call (s : State) (i : Instr) : Prop :=
  opcode_of (kind i) = OpCall /\
  exists callee nm p,
    operands_of (kind i) = [callee] /\
    value_name s callee = Some nm /\
    nm = (p ++ ".init")%string.

(** Every operand of the instruction is a value the backend can name (it is
    neither null nor a handle of nothing). *)
Definition operands_named (s : State) (i : Instr) : Prop :=
  Forall (fun v => is_Some (value_name s v)) (operands_of (kind i)).

(** ** Frame conditions *)

(** Whenever [m] returns, the states before and after are related by [R]. *)
Definition Preserves {A} (R : State -> State -> Prop) (m : M A) : Prop :=
  forall s a s', m s = Ok (a, s') -> R s s'.

Definition unchanged (s s' : State) : Prop := s' = s.
Definition same_blk (s s' : State) : Prop := blk (bld s') = blk (bld s).
Definition same_heap (s s' : State) : Prop := heap s' = heap s.

(** The state a positioning call leaves: the insertion point moved to [p],
    and the current block re-bound when [setBlk] is set. *)
Definition positioned (p : InsertPt) (blk : BasicBlock) (setBlk : bool) (s : State) : State :=
  let s1 := set_bld (with_impl p (bld s)) s in
  if setBlk then set_bld (with_blk blk (bld s1)) s1 else s1.

(** ** Example modules *)

Definition icall (u : nat) (nm : string) : Instr :=
  mkInstr u EmptyString (ICall (VGlobal nm) []).
Definition istore (u : nat) : Instr :=
  mkInstr u EmptyString (IOther OpStore [VConst 1; VGlobal "main.init$guard"]).
Definition ibr (u : nat) (dest : nat) : Instr :=
  mkInstr u EmptyString (IBr dest).

Definition ex_pkg : Package :=
  mkPackage (fun nm => mkExpr (VGlobal ("runtime." ++ nm)) (TSig [TBasic "any"] [])).

Definition iphi (u : nat) (inc : list (Value * nat)) : Instr :=
  mkInstr u EmptyString (IPhi (TBasic "int") inc).

(** A function at address 1, with declared results [res], owns two logical
    blocks: the one at address 10 (index 0) is the physical block 0 holding
    [l]; the one at address 11 (index 1) spans the physical blocks 3 to 4. A
    second function, at address 2, owns the logical block at address 20, the
    physical block 5. The builder is bound to function 1 and stands at the
    end of block 0. *)
Definition ex_state (res : list Type_) (l : list Instr) : State :=
  mkState (mkModule (<[0 := l]> (<[3 := []]> (<[4 := []]> (<[5 := []]> ∅)))) 100)
          (<[10 := mkBasicBlock 0 0 1 0%Z]>
             (<[11 := mkBasicBlock 3 4 1 1%Z]>
                (<[20 := mkBasicBlock 5 5 2 0%Z]> ∅)))
          (<[1 := mkFunction res]> (<[2 := mkFunction []]> ∅))
          (mkBuilder (IP_end 0) 10 1 ex_pkg 0) false [].

(** ** Emission at the cursor *)

(** The instructions the builder creates for [ks], in order, from identity
    [n] on. *)
Fixpoint fresh_instrs (n : nat) (ks : list InstrKind) : list Instr :=
  match ks with
  | [] => []
  | k :: ks' => mkInstr n EmptyString k :: fresh_instrs (S n) ks'
  end.

(** The insertion point of [s] cuts its block into [pre] and [post], and the
    instruction it stands before, if any, was created earlier. *)
Definition cursor_at (s : State) (pre post : list Instr) : Prop :=
  bbs (md s) !! ip_block (b_impl (bld s)) = Some (pre ++ post) /\
  split_at (b_impl (bld s)) (pre ++ post) = Some (pre, post) /\
  match b_impl (bld s) with
  | IP_before _ u => u < next_uid (md s)
  | IP_end _ => True
  end.

(** The state after the instructions [ks] were emitted, one after the other
    and nothing else, at a cursor that cut its block into [pre] and [post]. *)
Definition emitted (ks : list InstrKind) (pre post : list Instr) (s : State) : State :=
  set_md (mkModule
            (<[ip_block (b_impl (bld s)) :=
                 pre ++ fresh_instrs (next_uid (md s)) ks ++ post]> (bbs (md s)))
            (next_uid (md s) + length ks)) s.

(** The state after the debug trace of an operation, if it is switched on. *)
Definition traced (e : LogEntry) (s : State) : State :=
  if debugInstr s then set_log (log s ++ [e]) s else s.

(** What the backend holds after an operation: its module and the position
    of the builder, or how the operation ended. *)
Definition backend {A} (o : Outcome (A * State)) : Outcome (Module_ * InsertPt) :=
  match o with
  | Ok (_, s) => Ok (md s, b_impl (bld s))
  | Panicked msg => Panicked msg
  | Fault k => Fault k
  | OutOfFuel => OutOfFuel
  end.

(** ** Return packing, as the specification words it *)

(** Each value is coerced on its own to the declared type at its position, in
    argument order; the coercions run one after the other on the builder. *)
Inductive coerced_each (checkExpr : Expr -> Type_ -> M Expr)
  : list Expr -> list Type_ -> State -> list Expr -> State -> Prop :=
| coerced_nil s :
    coerced_each checkExpr [] [] s [] s
| coerced_cons v t vs ts s r s1 rs s2 :
    checkExpr v t s = Ok (r, s1) ->
    coerced_each checkExpr vs ts s1 rs s2 ->
    coerced_each checkExpr (v :: vs) (t :: ts) s (r :: rs) s2.

(** The state after the instructions [new] were linked in, one after the
    other and nothing else, at a cursor that cut its block into [pre] and
    [post]. *)
Definition inserted (new pre post : list Instr) (s : State) : State :=
  set_md (mkModule
            (<[ip_block (b_impl (bld s)) := pre ++ new ++ post]> (bbs (md s)))
            (next_uid (md s) + length new)) s.

(** The insertvalue instructions an aggregate return makes for [vals], from
    identity [n] on in block [bb], and the aggregate they arrive at from [V]:
    a constant joins a constant aggregate without an instruction, every
    other value is inserted by one. *)
Fixpoint mrv_chain (bb n : nat) (V : Value) (i : Z) (vals : list Value)
  : list Instr * Value :=
  match vals with
  | [] => ([], V)
  | v :: rest =>
      if is_constant V && is_constant v
      then mrv_chain bb n (VInsert V v i) (i + 1)%Z rest
      else
        let (l, V') := mrv_chain bb (S n) (VInst bb n) (i + 1)%Z rest in
        (mkInstr n "mrv" (IInsertValue V v i) :: l, V')
  end.

(** [aggregate_of chain bb V vals]: the value [V] is the aggregate whose
    elements are, from position 0 on, [vals]. It is the poison value when
    there is none; otherwise it sets the last element on the aggregate of
    the elements before it, as a constant the backend folded or as the
    result of an insertvalue instruction of [chain], in block [bb]. *)
Inductive aggregate_of (chain : list Instr) (bb : nat) : Value -> list Value -> Prop :=
| aggregate_poison :
    aggregate_of chain bb VPoison []
| aggregate_folded V v vals :
    aggregate_of chain bb V vals ->
    aggregate_of chain bb (VInsert V v (Z.of_nat (length vals))) (vals ++ [v])
| aggregate_inserted u nm V v vals :
    In (mkInstr u nm (IInsertValue V v (Z.of_nat (length vals)))) chain ->
    aggregate_of chain bb V vals ->
    aggregate_of chain bb (VInst bb u) (vals ++ [v]).

(** A coercion that only re-types the value. *)
Definition retype (v : Expr) (t : Type_) : M Expr :=
  ret (mkExpr (impl v) t).

(** ** Phi wiring *)

(** The incoming edges of the phi behind a handle, as the module holds them. *)
Definition phi_incoming (s : State) (v : Value) : option (list (Value * nat)) :=
  match get_instr v s with
  | Ok (i, _) =>
      match kind i with
      | IPhi _ inc => Some inc
      | _ => None
      end
  | _ => None
  end.

(** The state in which the phi of identity [u], between [pre] and [post] in
    block [bb], holds the incoming edges [inc]. *)
Definition with_incoming (bb u : nat) (nm : string) (t : Type_)
    (inc : list (Value * nat)) (pre post : list Instr) (s : State) : State :=
  set_md (mkModule (<[bb := pre ++ mkInstr u nm (IPhi t inc) :: post]> (bbs (md s)))
                   (next_uid (md s))) s.

(** ** The operations as data *)

(** The operations the layer exposes on a builder. *)
Inductive Operation : Type :=
| DoSetBlock (blk : BasicBlock)
| DoSetBlockEx (blk : BasicBlock) (pos : InsertPoint) (setBlk : bool)
| DoPanic (v : Expr)
| DoUnreachable
| DoGo (fn : Expr) (args : list Expr)
| DoReturn (results : list Expr)
| DoExtract (x : Expr) (i : Z)
| DoJump (jmpb : BasicBlock)
| DoIf (cond : Expr) (thenb elseb : BasicBlock)
| DoPhi (t : Type_)
| DoAddIncoming (p : Phi) (preds : list BasicBlock) (f : Z -> BasicBlock -> M Expr).

Definition run_op (checkExpr : Expr -> Type_ -> M Expr) (o : Operation) : M unit :=
  match o with
  | DoSetBlock blk => SetBlock blk
  | DoSetBlockEx blk pos setBlk => SetBlockEx blk pos setBlk
  | DoPanic v => Panic v
  | DoUnreachable => Unreachable
  | DoGo fn args => Go fn args
  | DoReturn results => Return checkExpr results
  | DoExtract x i => Extract x i ;;; ret tt
  | DoJump jmpb => Jump jmpb
  | DoIf cond thenb elseb => If cond thenb elseb
  | DoPhi t => Builder_Phi t ;;; ret tt
  | DoAddIncoming p preds f => AddIncoming p preds f
  end.

(** Any number of operations, one after the other. *)
Fixpoint run_ops (checkExpr : Expr -> Type_ -> M Expr) (os : list Operation) : M unit :=
  match os with
  | [] => ret tt
  | o :: os' => run_op checkExpr o ;;; run_ops checkExpr os'
  end.

(** The client code an operation carries (the callback of AddIncoming)
    respects [R]. *)
Definition callbacks_preserve (R : State -> State -> Prop) (o : Operation) : Prop :=
  match o with
  | DoAddIncoming _ _ f => forall i b, Preserves R (f i b)
  | _ => True
  end.

(** What [Index()] and [Parent()] answer for a block, if they answer. *)
Definition index_of (s : State) (p : BasicBlock) : option Z :=
  match Index p s with
  | Ok (i, _) => Some i
  | _ => None
  end.

Definition parent_of (s : State) (p : BasicBlock) : option Function :=
  match Parent p s with
  | Ok (f, _) => Some f
  | _ => None
  end.

(** A short run of operations on the example module, and the state it
    leaves. *)
Definition ex_ops : list Operation :=
  [DoSetBlockEx 11 AtEnd true;
   DoPhi (TBasic "int");
   DoGo (mkExpr (VGlobal "main.worker") (TSig [] [])) [];
   DoReturn [mkExpr (VConst 1) (TBasic "untyped int")];
   DoSetBlock 10;
   DoJump 11].

Definition ex_final : State :=
  match run_ops retype ex_ops (ex_state [TBasic "int"] [istore 1]) with
  | Ok (_, s) => s
  | _ => ex_state [TBasic "int"] [istore 1]
  end.

(** ** Well-formed blocks and further relations between states *)

(** The instructions of [l] carry pairwise different identities, all handed
    out before now. *)
Definition block_ok (s : State) (l : list Instr) : Prop :=
  NoDup (map uid l) /\ Forall (fun i => uid i < next_uid (md s)) l.

(** The callback of AddIncoming, called once per predecessor, in order, with
    the indices from [i] on; each call runs in the state the one before it
    left. *)
Inductive called_in_order (f : Z -> BasicBlock -> M Expr)
  : Z -> list BasicBlock -> State -> list Expr -> State -> Prop :=
| called_nil i s :
    called_in_order f i [] s [] s
| called_cons i b bs s e s1 es s2 :
    f i b s = Ok (e, s1) ->
    called_in_order f (i + 1)%Z bs s1 es s2 ->
    called_in_order f i (b :: bs) s (e :: es) s2.

(** The module, the blocks and the functions are as before. *)
Definition same_module (s s' : State) : Prop :=
  md s' = md s /\ heap s' = heap s /\ funcs s' = funcs s.

(** The builder is bound to the same function, package and program. *)
Definition same_binding (s s' : State) : Prop :=
  Func (bld s') = Func (bld s) /\ Pkg (bld s') = Pkg (bld s) /\
  Prog (bld s') = Prog (bld s).

(** With the debug switch off, it stays off and nothing is traced. *)
Definition quiet (s s' : State) : Prop :=
  debugInstr s = false -> debugInstr s' = false /\ log s' = log s.

(** An outcome without its debug trace. *)
Definition untraced {A} (o : Outcome (A * State)) : Outcome (A * State) :=
  match o with
  | Ok (a, s) => Ok (a, set_log [] s)
  | Panicked msg => Panicked msg
  | Fault k => Fault k
  | OutOfFuel => OutOfFuel
  end.

(** The instruction a plain emission creates in state [s]: the operations
    that emit one instruction through the backend builder and nothing else. *)
Definition plain_kind (s : State) (o : Operation) : option InstrKind :=
  match o with
  | DoUnreachable => Some IUnreachable
  | DoPhi t => Some (IPhi t [])
  | DoJump jmpb =>
      match heap s !! jmpb with
      | Some r => if Func (bld s) =? fn r then Some (IBr (first r)) else None
      | None => None
      end
  | DoIf cond thenb elseb =>
      match heap s !! thenb, heap s !! elseb with
      | Some t, Some e =>
          if (Func (bld s) =? fn t) && (Func (bld s) =? fn e)
          then Some (ICondBr (impl cond) (first t) (first e))
          else None
      | _, _ => None
      end
  | _ => None
  end.

Fixpoint plain_kinds (s : State) (os : list Operation) : option (list InstrKind) :=
  match os with
  | [] => Some []
  | o :: os' =>
      match plain_kind s o, plain_kinds s os' with
      | Some k, Some ks => Some (k :: ks)
      | _, _ => None
      end
  end.

(** [s] is [s0] after the instructions [ks] were emitted at its cursor, the
    debug trace apart. *)
Definition emitted_from (s0 : State) (pre post : list Instr) (ks : list InstrKind)
    (s : State) : Prop :=
  md s = md (emitted ks pre post s0) /\ bld s = bld s0 /\
  heap s = heap s0 /\ funcs s = funcs s0.

(** * Properties *)

(** ** Strings *)

Lemma str_drop_app (p s : string) :
  str_drop (String.length p) (p ++ s)%string = s.
Proof. induction p as [|c p IH]; simpl; auto. Qed.

Lemma str_length_app (p s : string) :
  String.length (p ++ s)%string = String.length p + String.length s.
Proof. induction p as [|c p IH]; simpl; auto. Qed.

Lemma str_drop_split (n : nat) (s : string) :
  n <= String.length s ->
  exists p, s = (p ++ str_drop n s)%string /\ String.length p = n.
Proof.
  revert s. induction n as [|n IH]; intros s Hn.
  - exists EmptyString. split; reflexivity.
  - destruct s as [|c s]; simpl in Hn; [lia|].
    destruct (IH s) as [p [Hp Hl]]; [lia|].
    exists (String c p). split; [|simpl; lia].
    change (String c s = String c (p ++ str_drop n s)%string). f_equal. exact Hp.
Qed.

(** [HasSuffix] is "ends with": the string is some prefix followed by the
    suffix. *)
Lemma HasSuffix_spec (s suffix : string) :
  HasSuffix s suffix = true <-> exists p, s = (p ++ suffix)%string.
Proof.
  unfold HasSuffix. rewrite andb_true_iff, Nat.leb_le, String.eqb_eq. split.
  - intros [Hle Heq].
    destruct (str_drop_split (String.length s - String.length suffix) s) as [p [Hp _]]; [lia|].
    exists p. rewrite Heq in Hp. exact Hp.
  - intros [p ->]. rewrite str_length_app. split; [lia|].
    replace (String.length p + String.length suffix - String.length suffix)
      with (String.length p) by lia.
    apply str_drop_app.
Qed.

(** ** Frame rules of the monad *)

Create HintDb frame.

Section Preservation.

Variable R : State -> State -> Prop.
Hypothesis R_refl : forall s, R s s.
Hypothesis R_trans : forall s1 s2 s3, R s1 s2 -> R s2 s3 -> R s1 s3.

Lemma preserves_ret A (a : A) : Preserves R (ret a).
Proof. intros s a' s' H. inversion H. apply R_refl. Qed.

Lemma preserves_panic A msg : Preserves R (@panic A msg).
Proof. intros s a s' H. discriminate. Qed.

Lemma preserves_fault A k : Preserves R (@fault A k).
Proof. intros s a s' H. discriminate. Qed.

Lemma preserves_diverge A : Preserves R (@diverge A).
Proof. intros s a s' H. discriminate. Qed.

Lemma preserves_bind A B (m : M A) (k : A -> M B) :
  Preserves R m -> (forall a, Preserves R (k a)) -> Preserves R (bind m k).
Proof.
  intros Hm Hk s b s' H. unfold bind in H.
  destruct (m s) as [[a s1]| | |] eqn:E; try discriminate.
  eapply R_trans; [eapply Hm; exact E | eapply Hk; exact H].
Qed.

Lemma preserves_get A (f : State -> A) : Preserves R (get f).
Proof. intros s a s' H. inversion H. apply R_refl. Qed.

Lemma preserves_modify (f : State -> State) :
  (forall s, R s (f s)) -> Preserves R (modify f).
Proof. intros Hf s a s' H. inversion H. apply Hf. Qed.

Lemma preserves_get_block bb : Preserves R (get_block bb).
Proof.
  intros s a s' H. unfold get_block in H.
  destruct (bbs (md s) !! bb); inversion H. apply R_refl.
Qed.

Lemma preserves_deref p : Preserves R (deref p).
Proof.
  intros s a s' H. unfold deref in H.
  destruct (heap s !! p); inversion H. apply R_refl.
Qed.

Lemma preserves_Func_Results : Preserves R Func_Results.
Proof.
  intros s a s' H. unfold Func_Results in H.
  destruct (funcs s !! Func (bld s)); inversion H. apply R_refl.
Qed.

Lemma preserves_when_debug m : Preserves R m -> Preserves R (when_debug m).
Proof.
  intros Hm. unfold when_debug. apply preserves_bind; [apply preserves_get|].
  intros []; [exact Hm | apply preserves_ret].
Qed.

End Preservation.

(** Takes a frame goal apart along the structure of the operation; the
    leaves are closed from the hint database. *)
Ltac frame_step :=
  first
    [ apply preserves_ret; solve [eauto]
    | apply preserves_panic
    | apply preserves_fault
    | apply preserves_diverge
    | apply preserves_get; solve [eauto]
    | apply preserves_get_block; solve [eauto]
    | apply preserves_deref; solve [eauto]
    | apply preserves_Func_Results; solve [eauto]
    | solve [eauto with frame]
    | apply preserves_when_debug; [solve [eauto] | solve [eauto] | ]
    | apply preserves_bind; [solve [eauto] | | intros ?]
    | match goal with
      | |- Preserves _ (match ?x with _ => _ end) => destruct x
      end ].

Ltac frame := repeat frame_step.

(** ** What the readers and the positioning calls leave alone *)

Section Readers.

Variable R : State -> State -> Prop.
Hypothesis R_refl : forall s, R s s.
Hypothesis R_trans : forall s1 s2 s3, R s1 s2 -> R s2 s3 -> R s1 s3.

Lemma preserves_get_instr v : Preserves R (get_instr v).
Proof. unfold get_instr. frame. Qed.
Hint Resolve preserves_get_instr : frame.

Lemma preserves_Name v : Preserves R (Name v).
Proof. unfold Name. frame. Qed.

Lemma preserves_FirstInstruction bb : Preserves R (FirstInstruction bb).
Proof. unfold FirstInstruction. frame. Qed.

Lemma preserves_LastInstruction bb : Preserves R (LastInstruction bb).
Proof. unfold LastInstruction. frame. Qed.

Lemma preserves_NextInstruction v : Preserves R (NextInstruction v).
Proof. unfold NextInstruction. frame. Qed.

Hint Resolve preserves_Name preserves_NextInstruction : frame.

Lemma preserves_notInit v : Preserves R (notInit v).
Proof. unfold notInit, InstructionOpcode, OperandsCount, Operand. frame. Qed.
Hint Resolve preserves_notInit : frame.

Lemma preserves_instrAfterInit_loop fuel :
  forall v, Preserves R (instrAfterInit_loop fuel v).
Proof. induction fuel as [|fuel IH]; intros v; simpl; frame. Qed.
Hint Resolve preserves_instrAfterInit_loop preserves_FirstInstruction : frame.

Lemma preserves_instrAfterInit bb : Preserves R (instrAfterInit bb).
Proof. unfold instrAfterInit. frame. Qed.

Lemma preserves_llvmPredBlocks preds : Preserves R (llvmPredBlocks preds).
Proof. induction preds as [|p preds IH]; simpl; frame. Qed.

Lemma preserves_At t i : Preserves R (At t i).
Proof. unfold At. frame. Qed.

End Readers.

#[local] Hint Resolve preserves_get_instr preserves_Name preserves_FirstInstruction
  preserves_LastInstruction preserves_NextInstruction preserves_notInit
  preserves_instrAfterInit_loop preserves_instrAfterInit preserves_llvmPredBlocks
  preserves_At : frame.

Lemma unchanged_refl s : unchanged s s.
Proof. reflexivity. Qed.

Lemma unchanged_trans s1 s2 s3 : unchanged s1 s2 -> unchanged s2 s3 -> unchanged s1 s3.
Proof. unfold unchanged. congruence. Qed.

Lemma get_instr_reads v : Preserves unchanged (get_instr v).
Proof. apply preserves_get_instr; [apply unchanged_refl | apply unchanged_trans]. Qed.

Lemma Name_reads v : Preserves unchanged (Name v).
Proof. apply preserves_Name; [apply unchanged_refl | apply unchanged_trans]. Qed.

Lemma notInit_reads v : Preserves unchanged (notInit v).
Proof. apply preserves_notInit; [apply unchanged_refl | apply unchanged_trans]. Qed.

(** ** Instructions of a block with unique identities *)

Lemma get_block_eq s bb l :
  bbs (md s) !! bb = Some l -> get_block bb s = Ok (l, s).
Proof. intros H. unfold get_block. rewrite H. reflexivity. Qed.

(** The instructions before [x] carry other identities than [x]. *)
Lemma uids_before (pre : list Instr) (x : Instr) (post : list Instr) :
  NoDup (map uid (pre ++ x :: post)) ->
  Forall (fun y => (uid y =? uid x) = false) pre.
Proof.
  induction pre as [|y pre IH]; simpl; intros Hnd; [constructor|].
  apply NoDup_cons in Hnd as [Hy Hnd]. constructor; [|auto].
  apply Nat.eqb_neq. intros E. apply Hy. rewrite E.
  rewrite map_app. apply elem_of_app. right. simpl. left.
Qed.

Lemma find_instr_at (pre : list Instr) (x : Instr) (post : list Instr) :
  NoDup (map uid (pre ++ x :: post)) ->
  find_instr (uid x) (pre ++ x :: post) = Some x.
Proof.
  intros Hnd. apply uids_before in Hnd. unfold find_instr.
  induction Hnd as [|y pre Hy _ IH]; simpl.
  - rewrite Nat.eqb_refl. reflexivity.
  - rewrite Hy. exact IH.
Qed.

Lemma next_in_at (pre : list Instr) (x : Instr) (post : list Instr) :
  NoDup (map uid (pre ++ x :: post)) ->
  next_in (uid x) (pre ++ x :: post) = Some (head post).
Proof.
  intros Hnd. apply uids_before in Hnd.
  induction Hnd as [|y pre Hy _ IH]; simpl.
  - rewrite Nat.eqb_refl. reflexivity.
  - rewrite Hy. exact IH.
Qed.

Lemma get_instr_at s bb pre x post :
  bbs (md s) !! bb = Some (pre ++ x :: post) ->
  NoDup (map uid (pre ++ x :: post)) ->
  get_instr (VInst bb (uid x)) s = Ok (x, s).
Proof.
  intros Hb Hnd. unfold get_instr, bind. rewrite (get_block_eq _ _ _ Hb).
  rewrite find_instr_at by exact Hnd. reflexivity.
Qed.

Lemma NextInstruction_at s bb pre x post :
  bbs (md s) !! bb = Some (pre ++ x :: post) ->
  NoDup (map uid (pre ++ x :: post)) ->
  NextInstruction (VInst bb (uid x)) s = Ok (handle_of bb (head post), s).
Proof.
  intros Hb Hnd. unfold NextInstruction, bind. rewrite (get_block_eq _ _ _ Hb).
  rewrite next_in_at by exact Hnd. reflexivity.
Qed.

(** ** The initializer test *)

(** [notInit] on an instruction of the block, case by case. *)
Lemma notInit_instr s bb x :
  get_instr (VInst bb (uid x)) s = Ok (x, s) ->
  notInit (VInst bb (uid x)) s =
    match opcode_of (kind x), operands_of (kind x) with
    | OpCall, [callee] =>
        match Name callee s with
        | Ok (nm, _) => Ok (negb (HasSuffix nm init_suffix), s)
        | Panicked m => Panicked m
        | Fault k => Fault k
        | OutOfFuel => OutOfFuel
        end
    | _, _ => Ok (true, s)
    end.
Proof.
  intros Hg. unfold notInit, InstructionOpcode, OperandsCount, Operand, bind.
  rewrite Hg. unfold ret at 1.
  destruct (opcode_of (kind x)); try reflexivity.
  rewrite Hg. unfold ret at 1.
  destruct (operands_of (kind x)) as [|c [|c' ops]] eqn:Eo.
  - reflexivity.
  - change (Z.of_nat (length [c]) =? 1)%Z with true. cbv beta iota.
    rewrite Hg. rewrite Eo. simpl.
    destruct (Name c s) as [[nm s1]| | |] eqn:En; try reflexivity.
    apply Name_reads in En. rewrite En. reflexivity.
  - replace (Z.of_nat (length (c :: c' :: ops)) =? 1)%Z with false; [reflexivity|].
    symmetry. apply Z.eqb_neq. simpl length. lia.
Qed.

(** The test rejects an initializer call... *)
Lemma notInit_init_call s bb x :
  get_instr (VInst bb (uid x)) s = Ok (x, s) ->
  init_call s x ->
  notInit (VInst bb (uid x)) s = Ok (false, s).
Proof.
  intros Hg [Hop (callee & nm & p & Hops & Hnm & Hsuf)].
  rewrite (notInit_instr _ _ _ Hg), Hop, Hops.
  unfold value_name in Hnm.
  destruct (Name callee s) as [[nm' s1]| | |]; try discriminate.
  inversion Hnm; subst nm'.
  replace (HasSuffix nm init_suffix) with true; [reflexivity|].
  symmetry. apply HasSuffix_spec. exists p. exact Hsuf.
Qed.

(** ... and accepts any other instruction whose operands can be named. *)
Lemma notInit_other s bb x :
  get_instr (VInst bb (uid x)) s = Ok (x, s) ->
  ~ init_call s x ->
  operands_named s x ->
  notInit (VInst bb (uid x)) s = Ok (true, s).
Proof.
  intros Hg Hn Hnamed. rewrite (notInit_instr _ _ _ Hg).
  destruct (opcode_of (kind x)) eqn:Hop; try reflexivity.
  destruct (operands_of (kind x)) as [|c [|c' ops]] eqn:Hops; try reflexivity.
  unfold operands_named in Hnamed. rewrite Hops in Hnamed.
  apply Forall_cons in Hnamed as [[nm Hnm] _].
  pose proof Hnm as Hnm'. unfold value_name in Hnm'.
  destruct (Name c s) as [[nm' s1]| | |]; try discriminate.
  inversion Hnm'; subst nm'.
  destruct (HasSuffix nm init_suffix) eqn:Hs; [|reflexivity].
  exfalso. apply Hn. split; [exact Hop|].
  apply HasSuffix_spec in Hs as [p Hp].
  exists c, nm, p. auto.
Qed.

(** ** The scan of [instrAfterInit] *)

(** One round of the loop. *)
Lemma instrAfterInit_loop_S fuel instr s :
  instrAfterInit_loop (S fuel) instr s =
    match NextInstruction instr s with
    | Ok (i, s1) =>
        match notInit i s1 with
        | Ok (b, s2) => if b then Ok (i, s2) else instrAfterInit_loop fuel i s2
        | Panicked m => Panicked m
        | Fault k => Fault k
        | OutOfFuel => OutOfFuel
        end
    | Panicked m => Panicked m
    | Fault k => Fault k
    | OutOfFuel => OutOfFuel
    end.
Proof.
  simpl. unfold bind. destruct (NextInstruction instr s) as [[i s1]| | |]; try reflexivity.
  destruct (notInit i s1) as [[[] s2]| | |]; reflexivity.
Qed.

(** From any instruction [x], the scan passes the initializer calls that
    follow it and stops at the first other instruction. [x] is not tested. *)
Lemma instrAfterInit_loop_lands s bb inits :
  forall pre x M rest fuel,
    bbs (md s) !! bb = Some (pre ++ x :: inits ++ M :: rest) ->
    NoDup (map uid (pre ++ x :: inits ++ M :: rest)) ->
    Forall (init_call s) inits ->
    ~ init_call s M ->
    operands_named s M ->
    length inits < fuel ->
    instrAfterInit_loop fuel (VInst bb (uid x)) s = Ok (VInst bb (uid M), s).
Proof.
  induction inits as [|i inits IH]; intros pre x M rest fuel Hb Hnd Hin HM HMn Hf;
    (destruct fuel as [|fuel]; [simpl in Hf; lia|]); rewrite instrAfterInit_loop_S.
  - rewrite (NextInstruction_at _ _ _ _ _ Hb Hnd). simpl handle_of.
    assert (Hg : get_instr (VInst bb (uid M)) s = Ok (M, s)).
    { apply (get_instr_at s bb (pre ++ [x]) M rest);
        rewrite <- app_assoc; assumption. }
    rewrite (notInit_other _ _ _ Hg HM HMn). reflexivity.
  - rewrite (NextInstruction_at _ _ _ _ _ Hb Hnd). simpl handle_of.
    apply Forall_cons in Hin as [Hi Hin].
    assert (Hb' : bbs (md s) !! bb = Some ((pre ++ [x]) ++ i :: inits ++ M :: rest))
      by (rewrite <- app_assoc; exact Hb).
    assert (Hnd' : NoDup (map uid ((pre ++ [x]) ++ i :: inits ++ M :: rest)))
      by (rewrite <- app_assoc; exact Hnd).
    rewrite (notInit_init_call _ _ _ (get_instr_at _ _ _ _ _ Hb' Hnd') Hi).
    apply (IH (pre ++ [x]) i M rest fuel Hb' Hnd' Hin HM HMn).
    simpl in Hf. lia.
Qed.

(** When only initializer calls follow [x], the scan leaves the block: it is
    handed the null handle after the last instruction and reads through it. *)
Lemma instrAfterInit_loop_runs_off s bb inits :
  forall pre x fuel,
    bbs (md s) !! bb = Some (pre ++ x :: inits) ->
    NoDup (map uid (pre ++ x :: inits)) ->
    Forall (init_call s) inits ->
    length inits < fuel ->
    instrAfterInit_loop fuel (VInst bb (uid x)) s = Fault NullHandle.
Proof.
  induction inits as [|i inits IH]; intros pre x fuel Hb Hnd Hin Hf;
    (destruct fuel as [|fuel]; [simpl in Hf; lia|]); rewrite instrAfterInit_loop_S.
  - rewrite (NextInstruction_at _ _ _ _ _ Hb Hnd). reflexivity.
  - rewrite (NextInstruction_at _ _ _ _ _ Hb Hnd). simpl handle_of.
    apply Forall_cons in Hin as [Hi Hin].
    assert (Hb' : bbs (md s) !! bb = Some ((pre ++ [x]) ++ i :: inits))
      by (rewrite <- app_assoc; exact Hb).
    assert (Hnd' : NoDup (map uid ((pre ++ [x]) ++ i :: inits)))
      by (rewrite <- app_assoc; exact Hnd).
    rewrite (notInit_init_call _ _ _ (get_instr_at _ _ _ _ _ Hb' Hnd') Hi).
    apply (IH (pre ++ [x]) i fuel Hb' Hnd' Hin).
    simpl in Hf. lia.
Qed.

(** The bound of the model is never reached: with as many rounds as
    instructions follow [x], and one more, the scan has ended, and further
    rounds change nothing. *)
Lemma instrAfterInit_loop_fuel s bb post :
  forall pre x fuel,
    bbs (md s) !! bb = Some (pre ++ x :: post) ->
    NoDup (map uid (pre ++ x :: post)) ->
    length post < fuel ->
    instrAfterInit_loop fuel (VInst bb (uid x)) s <> OutOfFuel /\
    instrAfterInit_loop fuel (VInst bb (uid x)) s =
    instrAfterInit_loop (S (length post)) (VInst bb (uid x)) s.
Proof.
  induction post as [|y post IH]; intros pre x fuel Hb Hnd Hf;
    (destruct fuel as [|fuel]; [simpl in Hf; lia|]);
    rewrite !instrAfterInit_loop_S;
    rewrite (NextInstruction_at _ _ _ _ _ Hb Hnd); simpl handle_of.
  - split; [discriminate | reflexivity].
  - assert (Hb' : bbs (md s) !! bb = Some ((pre ++ [x]) ++ y :: post))
      by (rewrite <- app_assoc; exact Hb).
    assert (Hnd' : NoDup (map uid ((pre ++ [x]) ++ y :: post)))
      by (rewrite <- app_assoc; exact Hnd).
    destruct (notInit (VInst bb (uid y)) s) as [[b s1]| | |] eqn:En;
      try (split; [discriminate | reflexivity]).
    + apply notInit_reads in En as Hs. rewrite Hs.
      destruct b; [split; [discriminate | reflexivity]|].
      destruct (IH (pre ++ [x]) y fuel Hb' Hnd') as [H1 H2]; [simpl in Hf; lia|].
      split; [exact H1|]. rewrite H2. reflexivity.
    + exfalso. revert En. rewrite (notInit_instr _ _ _ (get_instr_at _ _ _ _ _ Hb' Hnd')).
      destruct (opcode_of (kind y)); try discriminate.
      destruct (operands_of (kind y)) as [|c [|c' ops]]; try discriminate.
      destruct c; simpl; unfold ret, bind, fault, get_block; try discriminate.
      destruct (bbs (md s) !! parent); try discriminate.
      destruct (find_instr uid0 l); discriminate.
Qed.

(** ** Positioning *)

Lemma bind_ok A B (m : M A) (k : A -> M B) s a s' :
  m s = Ok (a, s') -> bind m k s = k a s'.
Proof. intros H. unfold bind. rewrite H. reflexivity. Qed.

Lemma bind_fault A B (m : M A) (k : A -> M B) s f :
  m s = Fault f -> bind m k s = Fault f.
Proof. intros H. unfold bind. rewrite H. reflexivity. Qed.

Lemma bind_panicked A B (m : M A) (k : A -> M B) s msg :
  m s = Panicked msg -> bind m k s = Panicked msg.
Proof. intros H. unfold bind. rewrite H. reflexivity. Qed.

Lemma instrAfterInit_eq s bb l :
  bbs (md s) !! bb = Some l ->
  instrAfterInit bb s = instrAfterInit_loop (S (length l)) (handle_of bb (head l)) s.
Proof.
  intros Hb. unfold instrAfterInit, FirstInstruction.
  rewrite (bind_ok _ _ _ _ s (handle_of bb (head l)) s).
  - rewrite (bind_ok _ _ _ _ s l s); [reflexivity | apply get_block_eq, Hb].
  - rewrite (bind_ok _ _ _ _ s l s); [reflexivity | apply get_block_eq, Hb].
Qed.

Lemma SetBlockEx_same_function s blk r pos setBlk :
  heap s !! blk = Some r ->
  Func (bld s) = fn r ->
  SetBlockEx blk pos setBlk s =
    (match pos with
     | AtEnd => SetInsertPointAtEnd (last r)
     | AtStart => i <- FirstInstruction (first r) ;; SetInsertPointBefore i
     | BeforeLast => i <- LastInstruction (last r) ;; SetInsertPointBefore i
     | afterInit => i <- instrAfterInit (first r) ;; SetInsertPointBefore i
     | _ => panic "SetBlockEx: invalid pos"
     end ;;;
     if setBlk then set_blk blk else ret tt) s.
Proof.
  intros Hh Hf. unfold SetBlockEx, get, deref. unfold bind at 1 2.
  rewrite Hh, Hf, Nat.eqb_refl. reflexivity.
Qed.

Lemma SetBlockEx_other_function s blk r pos setBlk :
  heap s !! blk = Some r ->
  Func (bld s) <> fn r ->
  SetBlockEx blk pos setBlk s = Panicked "mismatched function".
Proof.
  intros Hh Hf. unfold SetBlockEx, get, deref. unfold bind at 1 2.
  rewrite Hh. apply Nat.eqb_neq in Hf. rewrite Hf. reflexivity.
Qed.

Lemma SetInsertPointBefore_at s bb pre x post :
  bbs (md s) !! bb = Some (pre ++ x :: post) ->
  NoDup (map uid (pre ++ x :: post)) ->
  SetInsertPointBefore (VInst bb (uid x)) s =
    Ok (tt, set_bld (with_impl (IP_before bb (uid x)) (bld s)) s).
Proof.
  intros Hb Hnd. unfold SetInsertPointBefore, bind.
  rewrite (get_instr_at _ _ _ _ _ Hb Hnd). reflexivity.
Qed.

(** The scan never tests the first instruction of the block: after any
    first instruction [x], it passes the initializer calls and the cursor
    lands before the first other instruction. *)
Lemma afterInit_skips_first s blk r x inits M rest setBlk :
  heap s !! blk = Some r ->
  Func (bld s) = fn r ->
  bbs (md s) !! first r = Some (x :: inits ++ M :: rest) ->
  NoDup (map uid (x :: inits ++ M :: rest)) ->
  Forall (init_call s) inits ->
  ~ init_call s M ->
  operands_named s M ->
  SetBlockEx blk afterInit setBlk s =
    Ok (tt, positioned (IP_before (first r) (uid M)) blk setBlk s).
Proof.
  intros Hh Hf Hb Hnd Hin HM HMn.
  rewrite (SetBlockEx_same_function _ _ _ _ _ Hh Hf).
  assert (Hscan : instrAfterInit (first r) s = Ok (VInst (first r) (uid M), s)).
  { rewrite (instrAfterInit_eq _ _ _ Hb). simpl handle_of.
    apply (instrAfterInit_loop_lands s (first r) inits [] x M rest); try assumption.
    simpl. rewrite length_app. simpl. lia. }
  rewrite (bind_ok _ _ _ _ s tt (set_bld (with_impl (IP_before (first r) (uid M)) (bld s)) s)).
  - unfold positioned. destruct setBlk; reflexivity.
  - rewrite (bind_ok _ _ _ _ _ _ _ Hscan).
    apply (SetInsertPointBefore_at s (first r) (x :: inits) M rest); assumption.
Qed.

(** C1, as amended: for an entry block whose physical instruction prefix is
    exactly N >= 1 initializer calls (call instructions with exactly one
    operand whose referenced symbol name ends with ".init") followed by a
    first non-matching instruction M, resolving the after-initialization
    insertion point positions the cursor exactly before M. *)
Theorem afterInit_lands_before_M s blk r inits M rest setBlk :
  heap s !! blk = Some r ->
  Func (bld s) = fn r ->
  bbs (md s) !! first r = Some (inits ++ M :: rest) ->
  NoDup (map uid (inits ++ M :: rest)) ->
  inits <> [] ->
  Forall (init_call s) inits ->
  ~ init_call s M ->
  operands_named s M ->
  SetBlockEx blk afterInit setBlk s =
    Ok (tt, positioned (IP_before (first r) (uid M)) blk setBlk s).
Proof.
  intros Hh Hf Hb Hnd Hne Hin HM HMn.
  destruct inits as [|x inits]; [congruence|].
  apply Forall_cons in Hin as [_ Hin].
  eapply afterInit_skips_first; eassumption.
Qed.

Lemma init_call_icall s u p :
  init_call s (icall u (p ++ ".init")).
Proof.
  split; [reflexivity|].
  exists (VGlobal (p ++ ".init")), (p ++ ".init")%string, p. repeat split.
Qed.

(** The block the policy is made for: the store of the init guard, the
    initializer calls of the imported packages, then the rest. *)
Example afterInit_init_block :
  SetBlockEx 10 afterInit false
    (ex_state [] [istore 1; icall 2 "fmt.init"; icall 3 "os.init"; ibr 4 1]) =
  Ok (tt, positioned (IP_before 0 4) 10 false
            (ex_state [] [istore 1; icall 2 "fmt.init"; icall 3 "os.init"; ibr 4 1])).
Proof. reflexivity. Qed.

Lemma afterInit_lands_before_M_witness :
  SetBlockEx 10 afterInit true
    (ex_state [] [icall 2 "fmt.init"; icall 3 "os.init"; ibr 4 1]) =
  Ok (tt, positioned (IP_before 0 4) 10 true
            (ex_state [] [icall 2 "fmt.init"; icall 3 "os.init"; ibr 4 1])).
Proof.
  apply (afterInit_lands_before_M
           (ex_state [] [icall 2 "fmt.init"; icall 3 "os.init"; ibr 4 1])
           10 (mkBasicBlock 0 0 1 0%Z)
           [icall 2 "fmt.init"; icall 3 "os.init"] (ibr 4 1) [] true).
  - reflexivity.
  - reflexivity.
  - reflexivity.
  - apply (bool_decide_unpack _). vm_compute. exact I.
  - discriminate.
  - repeat constructor.
    + apply (init_call_icall _ 2 "fmt").
    + apply (init_call_icall _ 3 "os").
  - intros [H _]. discriminate H.
  - constructor.
Defined.

(** C1, counterexample: with N = 0 the block is [M; br] for a store M. The
    after-initialization policy lands before the branch that follows M,
    while the at-start policy lands before M. *)
Lemma afterInit_N0_counterexample :
  bbs (md (ex_state [] [istore 1; ibr 4 1])) !! 0 = Some ([] ++ istore 1 :: [ibr 4 1]) /\
  ~ init_call (ex_state [] [istore 1; ibr 4 1]) (istore 1) /\
  operands_named (ex_state [] [istore 1; ibr 4 1]) (istore 1) /\
  SetBlockEx 10 afterInit false (ex_state [] [istore 1; ibr 4 1]) =
    Ok (tt, positioned (IP_before 0 4) 10 false (ex_state [] [istore 1; ibr 4 1])) /\
  SetBlockEx 10 AtStart false (ex_state [] [istore 1; ibr 4 1]) =
    Ok (tt, positioned (IP_before 0 1) 10 false (ex_state [] [istore 1; ibr 4 1])) /\
  SetBlockEx 10 afterInit false (ex_state [] [istore 1; ibr 4 1]) <>
    Ok (tt, positioned (IP_before 0 (uid (istore 1))) 10 false
              (ex_state [] [istore 1; ibr 4 1])).
Proof.
  split; [reflexivity|].
  split; [intros [H _]; discriminate H|].
  split; [repeat constructor; eexists; reflexivity|].
  split; [reflexivity|].
  split; [reflexivity|].
  intros H.
  apply (f_equal (fun o => match o with
                           | Ok (_, s) => Some (b_impl (bld s))
                           | _ => None
                           end)) in H.
  vm_compute in H. discriminate H.
Qed.

Lemma SetInsertPointBefore_result v s s' :
  SetInsertPointBefore v s = Ok (tt, s') ->
  exists bb u, v = VInst bb u /\ s' = set_bld (with_impl (IP_before bb u) (bld s)) s.
Proof.
  unfold SetInsertPointBefore, bind. intros H.
  destruct (get_instr v s) as [[i s1]| | |] eqn:E; try discriminate.
  apply get_instr_reads in E. rewrite E in H.
  destruct v; try discriminate.
  exists parent, uid0. split; [reflexivity|]. inversion H. reflexivity.
Qed.

Lemma SetInsertPointBefore_ends v s : SetInsertPointBefore v s <> OutOfFuel.
Proof.
  unfold SetInsertPointBefore, bind.
  destruct (get_instr v s) as [[i s1]| | |] eqn:E; try discriminate.
  - destruct v; discriminate.
  - destruct v; simpl in E; unfold fault, bind, get_block in E; try discriminate.
    destruct (bbs (md s) !! parent); try discriminate.
    destruct (find_instr uid0 l); discriminate.
Qed.

(** Positioning before the null handle is a fault as well: the scan has no
    way to hand back an instruction-less position. *)
Lemma SetInsertPointBefore_null s :
  SetInsertPointBefore VNil s = Fault NullHandle.
Proof. reflexivity. Qed.

Lemma instrAfterInit_ends s bb l :
  bbs (md s) !! bb = Some l ->
  NoDup (map uid l) ->
  instrAfterInit bb s <> OutOfFuel.
Proof.
  intros Hb Hnd. rewrite (instrAfterInit_eq _ _ _ Hb).
  destruct l as [|x post]; [discriminate|].
  apply (instrAfterInit_loop_fuel s bb post [] x); simpl; auto.
Qed.

Lemma instrAfterInit_runs_off s bb l :
  bbs (md s) !! bb = Some l ->
  NoDup (map uid l) ->
  Forall (init_call s) (tail l) ->
  instrAfterInit bb s = Fault NullHandle.
Proof.
  intros Hb Hnd Hin. rewrite (instrAfterInit_eq _ _ _ Hb).
  destruct l as [|x post]; [reflexivity|].
  apply (instrAfterInit_loop_runs_off s bb post [] x); simpl; auto.
Qed.

(** C6, as amended: for an entry block of unique instructions, resolving the
    after-initialization insertion point terminates; when every instruction
    after the block's first is an initializer-prologue call (or none
    remains), it yields no insertion position: the scan leaves the block and
    the call ends on the null instruction handle. A position it does yield
    is always before an instruction, never an instruction-less one. *)
Theorem afterInit_without_other_instruction s blk r l setBlk :
  heap s !! blk = Some r ->
  Func (bld s) = fn r ->
  bbs (md s) !! first r = Some l ->
  NoDup (map uid l) ->
  SetBlockEx blk afterInit setBlk s <> OutOfFuel /\
  (Forall (init_call s) (tail l) ->
   SetBlockEx blk afterInit setBlk s = Fault NullHandle) /\
  (forall s', SetBlockEx blk afterInit setBlk s = Ok (tt, s') ->
              exists bb u, b_impl (bld s') = IP_before bb u).
Proof.
  intros Hh Hf Hb Hnd.
  rewrite (SetBlockEx_same_function _ _ _ _ _ Hh Hf).
  pose proof (instrAfterInit_ends _ _ _ Hb Hnd) as Hends.
  split; [|split].
  - unfold bind.
    destruct (instrAfterInit (first r) s) as [[v s1]| | |] eqn:E; try discriminate;
      [|congruence].
    pose proof (SetInsertPointBefore_ends v s1) as Hp.
    destruct (SetInsertPointBefore v s1) as [[[] s2]| | |]; try discriminate;
      [|congruence].
    destruct setBlk; discriminate.
  - intros Hin. apply bind_fault, bind_fault.
    apply (instrAfterInit_runs_off _ _ _ Hb Hnd Hin).
  - intros s' H. unfold bind in H.
    destruct (instrAfterInit (first r) s) as [[v s1]| | |] eqn:E; try discriminate.
    destruct (SetInsertPointBefore v s1) as [[[] s2]| | |] eqn:Ep; try discriminate.
    apply SetInsertPointBefore_result in Ep as (bb & u & _ & ->).
    exists bb, u. destruct setBlk; inversion H; reflexivity.
Qed.

Lemma afterInit_without_other_instruction_witness :
  SetBlockEx 10 afterInit false (ex_state [] [istore 1; icall 2 "fmt.init"]) <> OutOfFuel /\
  SetBlockEx 10 afterInit false (ex_state [] [istore 1; icall 2 "fmt.init"]) = Fault NullHandle.
Proof.
  destruct (afterInit_without_other_instruction
              (ex_state [] [istore 1; icall 2 "fmt.init"])
              10 (mkBasicBlock 0 0 1 0%Z) [istore 1; icall 2 "fmt.init"] false)
    as (H1 & H2 & _).
  - reflexivity.
  - reflexivity.
  - reflexivity.
  - apply (bool_decide_unpack _). vm_compute. exact I.
  - split; [exact H1|]. apply H2.
    repeat constructor. apply (init_call_icall _ 2 "fmt").
Defined.

(** C6, counterexample: an entry block whose instructions after the scan
    start are all initializer calls, and one whose only instruction is an
    initializer call, resolve to no position at all. *)
Lemma afterInit_all_init_counterexample :
  Forall (init_call (ex_state [] [istore 1; icall 2 "fmt.init"; icall 3 "os.init"]))
         [icall 2 "fmt.init"; icall 3 "os.init"] /\
  SetBlockEx 10 afterInit false
    (ex_state [] [istore 1; icall 2 "fmt.init"; icall 3 "os.init"]) = Fault NullHandle /\
  init_call (ex_state [] [icall 2 "fmt.init"]) (icall 2 "fmt.init") /\
  SetBlockEx 10 afterInit false (ex_state [] [icall 2 "fmt.init"]) = Fault NullHandle /\
  (forall s', SetBlockEx 10 afterInit false (ex_state [] [icall 2 "fmt.init"])
              <> Ok (tt, s')).
Proof.
  split; [repeat constructor; [apply (init_call_icall _ 2 "fmt") | apply (init_call_icall _ 3 "os")]|].
  split; [reflexivity|].
  split; [apply (init_call_icall _ 2 "fmt")|].
  split; [reflexivity|].
  intros s' H. vm_compute in H. discriminate H.
Qed.

(** ** Unrecognized policies *)

(** C8: for every allocated block and every insertion-point policy value
    outside the recognized set (at-end 0, at-start 1, before-terminator 2,
    after-initialization 3), SetBlockEx aborts with a descriptive message
    ("SetBlockEx: invalid pos", or "mismatched function" when the block is
    another function's) and neither positions the cursor nor returns. *)
Theorem SetBlockEx_invalid_pos s blk r pos setBlk :
  heap s !! blk = Some r ->
  (pos < 0 \/ 3 < pos)%Z ->
  SetBlockEx blk pos setBlk s =
    Panicked (if Func (bld s) =? fn r then "SetBlockEx: invalid pos"
              else "mismatched function").
Proof.
  intros Hh Hpos.
  destruct (Nat.eqb_spec (Func (bld s)) (fn r)) as [Hf|Hf].
  - rewrite (SetBlockEx_same_function _ _ _ _ _ Hh Hf).
    apply bind_panicked.
    destruct pos as [|[[]|[]|]|]; try reflexivity; lia.
  - apply (SetBlockEx_other_function _ _ _ _ _ Hh Hf).
Qed.

Lemma SetBlockEx_invalid_pos_witness :
  SetBlockEx 10 4%Z true (ex_state [] [ibr 4 1]) = Panicked "SetBlockEx: invalid pos".
Proof.
  apply (SetBlockEx_invalid_pos (ex_state [] [ibr 4 1]) 10 (mkBasicBlock 0 0 1 0%Z) 4%Z true).
  - reflexivity.
  - right. reflexivity.
Defined.

(** ** Emission at the cursor *)

Lemma fresh_instrs_app n ks ks' :
  fresh_instrs n (ks ++ ks') = fresh_instrs n ks ++ fresh_instrs (n + length ks) ks'.
Proof.
  revert n. induction ks as [|k ks IH]; intros n; simpl.
  - rewrite Nat.add_0_r. reflexivity.
  - rewrite IH. replace (S n + length ks) with (n + S (length ks)) by lia. reflexivity.
Qed.

Lemma fresh_instrs_uid n ks :
  Forall (fun i => n <= uid i) (fresh_instrs n ks).
Proof.
  revert n. induction ks as [|k ks IH]; intros n; simpl; constructor.
  - simpl. lia.
  - eapply Forall_impl; [apply IH|]. simpl. intros i Hi. lia.
Qed.

Lemma split_before_Some u l pre post :
  split_before u l = Some (pre, post) ->
  l = pre ++ post /\
  Forall (fun y => (uid y =? u) = false) pre /\
  exists x post', post = x :: post' /\ uid x = u.
Proof.
  revert pre post. induction l as [|y l IH]; intros pre post; simpl; [discriminate|].
  destruct (uid y =? u) eqn:E.
  - intros H. inversion H; subst. repeat split; [constructor|].
    exists y, l. split; [reflexivity|]. apply Nat.eqb_eq, E.
  - destruct (split_before u l) as [[pre' post']|]; [|discriminate].
    intros H. inversion H; subst.
    destruct (IH pre' post eq_refl) as (-> & Hpre & Hx).
    repeat split; [constructor; assumption | exact Hx].
Qed.

Lemma split_before_app u mid pre post :
  Forall (fun y => (uid y =? u) = false) pre ->
  Forall (fun y => (uid y =? u) = false) mid ->
  (exists x post', post = x :: post' /\ uid x = u) ->
  split_before u (pre ++ mid ++ post) = Some (pre ++ mid, post).
Proof.
  intros Hpre Hmid (x & post' & -> & Hx).
  rewrite app_assoc.
  assert (Hall : Forall (fun y => (uid y =? u) = false) (pre ++ mid))
    by (apply Forall_app; split; assumption).
  revert Hall. generalize (pre ++ mid). clear - Hx.
  induction 1 as [|y l Hy _ IH]; simpl.
  - rewrite Hx, Nat.eqb_refl. reflexivity.
  - rewrite Hy, IH. reflexivity.
Qed.

(** After any run of emissions the cursor cuts the block behind the new
    instructions. *)
Lemma split_at_emitted s pre post ks :
  cursor_at s pre post ->
  split_at (b_impl (bld s)) (pre ++ fresh_instrs (next_uid (md s)) ks ++ post) =
    Some (pre ++ fresh_instrs (next_uid (md s)) ks, post).
Proof.
  intros (_ & Hsplit & Hfresh).
  destruct (b_impl (bld s)) as [bb|bb u]; simpl in *.
  - inversion Hsplit as [[Hpre Hpost]].
    assert (post = []) as -> by (destruct post; [reflexivity|];
      apply (f_equal (@length Instr)) in Hpre; rewrite length_app in Hpre; simpl in Hpre; lia).
    rewrite !app_nil_r. reflexivity.
  - apply split_before_Some in Hsplit as (_ & Hpre & Hx).
    apply split_before_app; try assumption.
    eapply Forall_impl; [apply fresh_instrs_uid|].
    simpl. intros i Hi. apply Nat.eqb_neq. lia.
Qed.

(** The first emission at a cursor. *)
Lemma emit_first s k pre post :
  cursor_at s pre post ->
  emit k s = Ok (VInst (ip_block (b_impl (bld s))) (next_uid (md s)),
                 emitted [k] pre post s).
Proof.
  intros Hc. pose proof Hc as (Hb & Hsplit & _).
  unfold emit. rewrite Hb, Hsplit. unfold emitted. simpl.
  rewrite Nat.add_1_r. reflexivity.
Qed.

(** Every further emission. *)
Lemma emit_next s k ks pre post :
  cursor_at s pre post ->
  emit k (emitted ks pre post s) =
    Ok (VInst (ip_block (b_impl (bld s))) (next_uid (md s) + length ks),
        emitted (ks ++ [k]) pre post s).
Proof.
  intros Hc. unfold emit, emitted. simpl.
  rewrite lookup_insert_eq, (split_at_emitted _ _ _ ks Hc).
  simpl. rewrite insert_insert_eq.
  rewrite fresh_instrs_app, length_app. simpl.
  rewrite <- !app_assoc. simpl.
  replace (S (next_uid (md s) + length ks)) with (next_uid (md s) + (length ks + 1)) by lia.
  reflexivity.
Qed.

Lemma cursor_at_traced e s pre post :
  cursor_at s pre post -> cursor_at (traced e s) pre post.
Proof. unfold traced. destruct (debugInstr s); auto. Qed.

Lemma when_debug_logf e s :
  when_debug (logf e) s = Ok (tt, traced e s).
Proof.
  unfold when_debug, logf, modify, get, bind, traced.
  destruct (debugInstr s); reflexivity.
Qed.

(** ** Panic *)

(** C4: for every value v, at any cursor, Panic(v) emits exactly one call
    instruction, to the runtime function "TracePanic" with v as its single
    argument, immediately followed by exactly one unreachable terminator, and
    nothing else: the block at the cursor gains these two instructions, side
    by side, and the rest of the module is as before. *)
Theorem Panic_emits_call_then_unreachable s v pre post :
  cursor_at s pre post ->
  Panic v s =
    Ok (tt, emitted [ICall (impl (rtFunc (Pkg (bld s)) "TracePanic")) [impl v];
                     IUnreachable]
                    pre post (traced (LogPanic (impl v)) s)).
Proof.
  intros Hc. unfold Panic.
  rewrite (bind_ok _ _ _ _ _ _ _ (when_debug_logf _ s)).
  apply (cursor_at_traced (LogPanic (impl v))) in Hc.
  set (s0 := traced (LogPanic (impl v)) s) in *.
  assert (Hpkg : Pkg (bld s0) = Pkg (bld s))
    by (unfold s0, traced; destruct (debugInstr s); reflexivity).
  unfold get. unfold bind at 1. rewrite Hpkg.
  unfold Call, CreateCall, CreateUnreachable.
  unfold bind at 1 2. rewrite (emit_first _ _ _ _ Hc). unfold ret at 1.
  unfold bind. rewrite (emit_next _ _ [_] _ _ Hc). reflexivity.
Qed.

Lemma Panic_emits_call_then_unreachable_witness :
  Panic (mkExpr (VConst 5) (TBasic "any")) (ex_state [] [istore 1; ibr 4 1]) =
    Ok (tt, emitted [ICall (VGlobal "runtime.TracePanic") [VConst 5]; IUnreachable]
                    [istore 1; ibr 4 1] [] (ex_state [] [istore 1; ibr 4 1])).
Proof.
  apply (Panic_emits_call_then_unreachable
           (ex_state [] [istore 1; ibr 4 1]) (mkExpr (VConst 5) (TBasic "any"))
           [istore 1; ibr 4 1] []).
  repeat split.
Defined.

(** ** Go *)

(** C7: for every function value and argument list, in every state, Go
    leaves the backend exactly as a direct Call does: the same module, the
    same builder position, or the same failure. Only the debug trace, when
    switched on, tells them apart. *)
Theorem Go_emits_as_Call fn args s :
  backend (Go fn args s) = backend (Call fn args s).
Proof.
  unfold Go, when_debug, logCall, logf, modify, get, Call, CreateCall, emit, bind, ret.
  destruct (debugInstr s); simpl;
    destruct (bbs (md s) !! ip_block (b_impl (bld s))) as [l|]; try reflexivity;
    destruct (split_at (b_impl (bld s)) l) as [[pre post]|]; reflexivity.
Qed.

(** ** Aggregate returns *)

Lemma inserted_nil s pre post :
  cursor_at s pre post -> inserted [] pre post s = s.
Proof.
  intros (Hb & _ & _). unfold inserted, set_md. simpl.
  rewrite insert_id by exact Hb. rewrite Nat.add_0_r.
  destruct s as [[b n] h f bl d l]. reflexivity.
Qed.

Lemma split_at_inserted s pre post new :
  cursor_at s pre post ->
  Forall (fun y => next_uid (md s) <= uid y) new ->
  split_at (b_impl (bld s)) (pre ++ new ++ post) = Some (pre ++ new, post).
Proof.
  intros (_ & Hsplit & Hfresh) Hnew.
  destruct (b_impl (bld s)) as [bb|bb u]; simpl in *.
  - inversion Hsplit as [[Hpre Hpost]].
    assert (post = []) as -> by (destruct post; [reflexivity|];
      apply (f_equal (@length Instr)) in Hpre; rewrite length_app in Hpre; simpl in Hpre; lia).
    rewrite !app_nil_r. reflexivity.
  - apply split_before_Some in Hsplit as (_ & Hpre & Hx).
    apply split_before_app; try assumption.
    eapply Forall_impl; [exact Hnew|].
    simpl. intros i Hi. apply Nat.eqb_neq. lia.
Qed.

(** A named emission after any run of insertions at the cursor. *)
Lemma emit_named_inserted s nm k new pre post :
  cursor_at s pre post ->
  Forall (fun y => next_uid (md s) <= uid y) new ->
  emit_named nm k (inserted new pre post s) =
    Ok (VInst (ip_block (b_impl (bld s))) (next_uid (md s) + length new),
        inserted (new ++ [mkInstr (next_uid (md s) + length new) nm k]) pre post s).
Proof.
  intros Hc Hnew. unfold emit_named, inserted. simpl.
  rewrite lookup_insert_eq, (split_at_inserted _ _ _ new Hc Hnew).
  simpl. rewrite insert_insert_eq.
  rewrite length_app. simpl.
  rewrite <- !app_assoc. simpl.
  replace (S (next_uid (md s) + length new)) with (next_uid (md s) + (length new + 1)) by lia.
  reflexivity.
Qed.

Lemma CreateInsertValue_eq V v i nm :
  V <> VNil -> v <> VNil ->
  CreateInsertValue V v i nm =
    if is_constant V && is_constant v then ret (VInsert V v i)
    else emit_named nm (IInsertValue V v i).
Proof. intros HV Hv. destruct V, v; try congruence; reflexivity. Qed.

Lemma mrv_chain_fresh bb vals :
  forall n V i, Forall (fun y => n <= uid y) (fst (mrv_chain bb n V i vals)).
Proof.
  induction vals as [|v vals IH]; intros n V i; simpl.
  - constructor.
  - destruct (is_constant V && is_constant v).
    + apply IH.
    + specialize (IH (S n) (VInst bb n) (i + 1)%Z).
      destruct (mrv_chain bb (S n) (VInst bb n) (i + 1)%Z vals) as [l V']. simpl in *.
      constructor; [simpl; lia|].
      eapply Forall_impl; [exact IH|]. simpl. intros; lia.
Qed.

(** The instructions an aggregate return makes on the way are insertvalue
    instructions. *)
Lemma mrv_chain_insertvalues bb vals :
  forall n V i,
    Forall (fun y => opcode_of (kind y) = OpInsertValue) (fst (mrv_chain bb n V i vals)).
Proof.
  induction vals as [|v vals IH]; intros n V i; simpl.
  - constructor.
  - destruct (is_constant V && is_constant v).
    + apply IH.
    + specialize (IH (S n) (VInst bb n) (i + 1)%Z).
      destruct (mrv_chain bb (S n) (VInst bb n) (i + 1)%Z vals) as [l V']. simpl in *.
      constructor; [reflexivity | exact IH].
Qed.

Lemma aggregate_of_weaken chain chain' bb V vals :
  (forall x, In x chain -> In x chain') ->
  aggregate_of chain bb V vals -> aggregate_of chain' bb V vals.
Proof.
  intros Hsub. induction 1 as [|V v vals _ IH|u nm V v vals Hin _ IH].
  - constructor.
  - constructor. exact IH.
  - econstructor; [apply Hsub; exact Hin | exact IH].
Qed.

(** They arrive at the aggregate of the values, in order. *)
Lemma mrv_chain_aggregate bb vals :
  forall n V done chain0,
    aggregate_of chain0 bb V done ->
    aggregate_of (chain0 ++ fst (mrv_chain bb n V (Z.of_nat (length done)) vals)) bb
                 (snd (mrv_chain bb n V (Z.of_nat (length done)) vals)) (done ++ vals).
Proof.
  induction vals as [|v vals IH]; intros n V done chain0 Hagg; simpl.
  - rewrite !app_nil_r. exact Hagg.
  - assert (Hi : (Z.of_nat (length done) + 1)%Z = Z.of_nat (length (done ++ [v])))
      by (rewrite length_app; simpl; lia).
    rewrite Hi.
    replace (done ++ v :: vals) with ((done ++ [v]) ++ vals)
      by (rewrite <- app_assoc; reflexivity).
    destruct (is_constant V && is_constant v).
    + apply IH. constructor. exact Hagg.
    + specialize (IH (S n) (VInst bb n) (done ++ [v])
                     (chain0 ++ [mkInstr n "mrv" (IInsertValue V v (Z.of_nat (length done)))])).
      destruct (mrv_chain bb (S n) (VInst bb n) (Z.of_nat (length (done ++ [v]))) vals)
        as [l V']. simpl in *.
      rewrite <- app_assoc in IH. simpl in IH. apply IH.
      econstructor.
      * apply in_or_app. right. left. reflexivity.
      * eapply aggregate_of_weaken; [|exact Hagg].
        intros x Hx. apply in_or_app. left. exact Hx.
Qed.

(** The loop of the aggregate return, after any run of insertions at the
    cursor: it runs to its end and links in the chain, nothing else. *)
Lemma aggregate_loop_inserted vals :
  forall V i new s pre post,
    cursor_at s pre post ->
    Forall (fun y => next_uid (md s) <= uid y) new ->
    V <> VNil ->
    Forall (fun v => v <> VNil) vals ->
    aggregate_loop V i vals (inserted new pre post s) =
      Ok (snd (mrv_chain (ip_block (b_impl (bld s))) (next_uid (md s) + length new) V i vals),
          inserted (new ++ fst (mrv_chain (ip_block (b_impl (bld s)))
                                  (next_uid (md s) + length new) V i vals))
                   pre post s).
Proof.
  induction vals as [|v vals IH]; intros V i new s pre post Hc Hnew HV Hvals; simpl.
  - rewrite app_nil_r. reflexivity.
  - inversion Hvals as [|? ? Hv Hrest]; subst.
    rewrite (CreateInsertValue_eq _ _ _ _ HV Hv).
    destruct (is_constant V && is_constant v).
    + unfold bind at 1. unfold ret at 1.
      apply IH; try assumption. discriminate.
    + rewrite (bind_ok _ _ _ _ _ _ _ (emit_named_inserted _ _ _ _ _ _ Hc Hnew)).
      rewrite IH; try assumption; try discriminate.
      * rewrite length_app. simpl. rewrite Nat.add_assoc, Nat.add_1_r.
        destruct (mrv_chain (ip_block (b_impl (bld s))) (S (next_uid (md s) + length new))
                    (VInst (ip_block (b_impl (bld s))) (next_uid (md s) + length new))
                    (i + 1)%Z vals) as [l V'].
        simpl. rewrite <- app_assoc. reflexivity.
      * apply Forall_app. split; [exact Hnew|].
        constructor; [simpl; lia | constructor].
Qed.

(** The aggregate return at a cursor: the chain, then one return of the
    aggregate it arrives at. *)
Lemma CreateAggregateRet_at s vals pre post :
  cursor_at s pre post ->
  Forall (fun v => v <> VNil) vals ->
  CreateAggregateRet vals s =
    Ok (VInst (ip_block (b_impl (bld s)))
              (next_uid (md s) +
               length (fst (mrv_chain (ip_block (b_impl (bld s))) (next_uid (md s))
                              VPoison 0%Z vals))),
        inserted
          (fst (mrv_chain (ip_block (b_impl (bld s))) (next_uid (md s)) VPoison 0%Z vals) ++
           [mkInstr (next_uid (md s) +
                     length (fst (mrv_chain (ip_block (b_impl (bld s))) (next_uid (md s))
                                    VPoison 0%Z vals)))
                    EmptyString
                    (IRet (snd (mrv_chain (ip_block (b_impl (bld s))) (next_uid (md s))
                                  VPoison 0%Z vals)))])
          pre post s).
Proof.
  intros Hc Hvals. unfold CreateAggregateRet.
  pose proof (aggregate_loop_inserted vals VPoison 0%Z [] s pre post Hc
                ltac:(constructor) ltac:(discriminate) Hvals) as Hloop.
  rewrite (inserted_nil _ _ _ Hc) in Hloop. simpl in Hloop.
  rewrite Nat.add_0_r in Hloop.
  rewrite (bind_ok _ _ _ _ _ _ _ Hloop).
  change (emit ?k) with (emit_named EmptyString k).
  apply emit_named_inserted; [exact Hc | apply mrv_chain_fresh].
Qed.

(** ** Return *)

Section ReturnPacking.

Variable checkExpr : Expr -> Type_ -> M Expr.

Lemma llvmParams_coerced vals ts s rs s' :
  coerced_each checkExpr vals ts s rs s' ->
  forall done,
    llvmParams checkExpr (length done) vals (done ++ ts) s = Ok (map impl rs, s').
Proof.
  induction 1 as [s|v t vs ts s r s1 rs s2 Hc _ IH]; intros done; simpl.
  - reflexivity.
  - assert (Hnth : nth_error (done ++ t :: ts) (length done) = Some t).
    { rewrite nth_error_app2 by lia. rewrite Nat.sub_diag. reflexivity. }
    rewrite Hnth.
    rewrite (bind_ok _ _ _ _ _ _ _ Hc).
    specialize (IH (done ++ [t])).
    rewrite length_app, <- app_assoc in IH. simpl in IH.
    rewrite Nat.add_1_r in IH.
    rewrite (bind_ok _ _ _ _ _ _ _ IH). reflexivity.
Qed.

Lemma Func_Results_traced e s f :
  funcs s !! Func (bld s) = Some f ->
  Func_Results (traced e s) = Ok (Results f, traced e s).
Proof.
  intros Hf. unfold Func_Results.
  replace (funcs (traced e s)) with (funcs s)
    by (unfold traced; destruct (debugInstr s); reflexivity).
  replace (Func (bld (traced e s))) with (Func (bld s))
    by (unfold traced; destruct (debugInstr s); reflexivity).
  rewrite Hf. reflexivity.
Qed.

(** C3: Return with zero arguments emits a void return; Return with exactly
    one argument coerces it to the function's single declared result type
    and emits a single-value return of the coerced value; Return with two
    or more arguments coerces each argument on its own, in argument order,
    to the declared result type at its position and emits exactly one
    return, of the aggregate whose elements are, in argument order, the
    coerced values. That aggregate is built at the cursor, right before
    the return, by the insertvalue instructions of [mrv_chain] (none when
    every element is a constant); with zero or one argument the return is
    the only instruction the call itself emits. *)
Theorem Return_packs :
  (forall s pre post,
      cursor_at s pre post ->
      Return checkExpr [] s =
        Ok (tt, emitted [IRetVoid] pre post (traced (LogReturn []) s))) /\
  (forall s f T v r s1 pre post,
      funcs s !! Func (bld s) = Some f ->
      Results f = [T] ->
      checkExpr v T (traced (LogReturn [impl v]) s) = Ok (r, s1) ->
      cursor_at s1 pre post ->
      Return checkExpr [v] s = Ok (tt, emitted [IRet (impl r)] pre post s1)) /\
  (forall s f vs rs s1 pre post,
      2 <= length vs ->
      funcs s !! Func (bld s) = Some f ->
      coerced_each checkExpr vs (Results f) (traced (LogReturn (map impl vs)) s) rs s1 ->
      Forall (fun r => impl r <> VNil) rs ->
      cursor_at s1 pre post ->
      exists chain V,
        mrv_chain (ip_block (b_impl (bld s1))) (next_uid (md s1)) VPoison 0%Z (map impl rs) =
          (chain, V) /\
        Return checkExpr vs s =
          Ok (tt, inserted (chain ++ [mkInstr (next_uid (md s1) + length chain)
                                              EmptyString (IRet V)])
                           pre post s1) /\
        Forall (fun i => opcode_of (kind i) = OpInsertValue) chain /\
        aggregate_of chain (ip_block (b_impl (bld s1))) V (map impl rs)).
Proof.
  split; [|split].
  - intros s pre post Hc. unfold Return.
    rewrite (bind_ok _ _ _ _ _ _ _ (when_debug_logf _ s)).
    apply (cursor_at_traced (LogReturn [])) in Hc.
    unfold CreateRetVoid.
    rewrite (bind_ok _ _ _ _ _ _ _ (emit_first _ _ _ _ Hc)). reflexivity.
  - intros s f T v r s1 pre post Hf HT Hchk Hc. unfold Return.
    rewrite (bind_ok _ _ _ _ _ _ _ (when_debug_logf _ s)).
    rewrite (bind_ok _ _ _ _ _ _ _ (Func_Results_traced _ _ _ Hf)).
    rewrite HT. unfold At. simpl nth_error.
    rewrite (bind_ok _ _ _ _ (traced (LogReturn (map impl [v])) s) T
               (traced (LogReturn (map impl [v])) s)) by reflexivity.
    rewrite (bind_ok _ _ _ _ _ _ _ Hchk).
    unfold CreateRet.
    rewrite (bind_ok _ _ _ _ _ _ _ (emit_first _ _ _ _ Hc)). reflexivity.
  - intros s f vs rs s1 pre post Hlen Hf Hco Hnn Hc.
    pose proof (mrv_chain_insertvalues (ip_block (b_impl (bld s1))) (map impl rs)
                  (next_uid (md s1)) VPoison 0%Z) as Hops.
    pose proof (mrv_chain_aggregate (ip_block (b_impl (bld s1))) (map impl rs)
                  (next_uid (md s1)) VPoison [] []
                  (aggregate_poison _ _)) as Hagg.
    assert (Hvals : Forall (fun v => v <> VNil) (map impl rs))
      by (apply Forall_map; exact Hnn).
    pose proof (CreateAggregateRet_at s1 (map impl rs) pre post Hc Hvals) as Hret.
    simpl in Hagg. change (Z.of_nat 0) with 0%Z in Hagg.
    destruct (mrv_chain (ip_block (b_impl (bld s1))) (next_uid (md s1)) VPoison 0%Z
                (map impl rs)) as [chain V].
    simpl in *.
    exists chain, V. split; [reflexivity|]. split; [|split; [exact Hops | exact Hagg]].
    unfold Return.
    rewrite (bind_ok _ _ _ _ _ _ _ (when_debug_logf _ s)).
    destruct vs as [|v0 [|v1 vs]]; simpl in Hlen; try lia.
    rewrite (bind_ok _ _ _ _ _ _ _ (Func_Results_traced _ _ _ Hf)).
    rewrite (bind_ok _ _ _ _ _ _ _ (llvmParams_coerced _ _ _ _ _ Hco [])).
    rewrite (bind_ok _ _ _ _ _ _ _ Hret). reflexivity.
Qed.

End ReturnPacking.

Lemma Return_packs_witness :
  mrv_chain 0 100 VPoison 0%Z [VInst 0 1; VConst 7; VGlobal "s"] =
    ([mkInstr 100 "mrv" (IInsertValue VPoison (VInst 0 1) 0%Z);
      mkInstr 101 "mrv" (IInsertValue (VInst 0 100) (VConst 7) 1%Z);
      mkInstr 102 "mrv" (IInsertValue (VInst 0 101) (VGlobal "s") 2%Z)],
     VInst 0 102) /\
  Return retype
    [mkExpr (VInst 0 1) (TBasic "int"); mkExpr (VConst 7) (TBasic "untyped int");
     mkExpr (VGlobal "s") (TBasic "untyped string")]
    (ex_state [TBasic "int"; TBasic "int"; TBasic "string"] [istore 1]) =
  Ok (tt, inserted
            [mkInstr 100 "mrv" (IInsertValue VPoison (VInst 0 1) 0%Z);
             mkInstr 101 "mrv" (IInsertValue (VInst 0 100) (VConst 7) 1%Z);
             mkInstr 102 "mrv" (IInsertValue (VInst 0 101) (VGlobal "s") 2%Z);
             mkInstr 103 EmptyString (IRet (VInst 0 102))]
            [istore 1] []
            (ex_state [TBasic "int"; TBasic "int"; TBasic "string"] [istore 1])).
Proof.
  destruct (proj2 (proj2 (Return_packs retype))
              (ex_state [TBasic "int"; TBasic "int"; TBasic "string"] [istore 1])
              (mkFunction [TBasic "int"; TBasic "int"; TBasic "string"])
              [mkExpr (VInst 0 1) (TBasic "int"); mkExpr (VConst 7) (TBasic "untyped int");
               mkExpr (VGlobal "s") (TBasic "untyped string")]
              [mkExpr (VInst 0 1) (TBasic "int"); mkExpr (VConst 7) (TBasic "int");
               mkExpr (VGlobal "s") (TBasic "string")]
              (ex_state [TBasic "int"; TBasic "int"; TBasic "string"] [istore 1])
              [istore 1] [])
    as (chain & V & Hch & Hret & _).
  - simpl. lia.
  - reflexivity.
  - repeat econstructor.
  - repeat constructor; discriminate.
  - repeat split.
  - simpl in Hch. inversion Hch; subst chain V. split; [reflexivity | exact Hret].
Defined.

(** ** Phi wiring *)

Lemma deref_eq s p r : heap s !! p = Some r -> deref p s = Ok (r, s).
Proof. intros H. unfold deref. rewrite H. reflexivity. Qed.

Lemma llvmPredBlocks_last s preds rs :
  Forall2 (fun p r => heap s !! p = Some r) preds rs ->
  llvmPredBlocks preds s = Ok (map last rs, s).
Proof.
  induction 1 as [|p r preds rs Hp _ IH]; simpl; [reflexivity|].
  rewrite (bind_ok _ _ _ _ _ _ _ (deref_eq _ _ _ Hp)).
  rewrite (bind_ok _ _ _ _ _ _ _ IH). reflexivity.
Qed.

Lemma add_incoming_in_at u nm t inc new pre post :
  Forall (fun y => (uid y =? u) = false) pre ->
  add_incoming_in u new (pre ++ mkInstr u nm (IPhi t inc) :: post) =
    Some (pre ++ mkInstr u nm (IPhi t (inc ++ new)) :: post).
Proof.
  induction 1 as [|y pre Hy _ IH]; simpl.
  - rewrite Nat.eqb_refl. reflexivity.
  - rewrite Hy, IH. reflexivity.
Qed.

(** The backend call: the new edges are appended to the phi, value [i] paired
    with block [i]. *)
Lemma llvm_AddIncoming_at s bb u nm t inc pre post vals blocks :
  bbs (md s) !! bb = Some (pre ++ mkInstr u nm (IPhi t inc) :: post) ->
  NoDup (map uid (pre ++ mkInstr u nm (IPhi t inc) :: post)) ->
  blocks <> [] ->
  llvm_AddIncoming (VInst bb u) vals blocks s =
    Ok (tt, with_incoming bb u nm t (inc ++ combine vals blocks) pre post s).
Proof.
  intros Hb Hnd Hne. unfold llvm_AddIncoming.
  destruct blocks as [|b0 blocks]; [congruence|].
  rewrite (bind_ok _ _ _ _ _ _ _ (get_block_eq _ _ _ Hb)).
  rewrite add_incoming_in_at; [reflexivity|].
  apply (uids_before pre (mkInstr u nm (IPhi t inc)) post Hnd).
Qed.

Lemma phi_incoming_with_incoming s bb u nm t inc pre post :
  NoDup (map uid (pre ++ mkInstr u nm (IPhi t inc) :: post)) ->
  phi_incoming (with_incoming bb u nm t inc pre post s) (VInst bb u) = Some inc.
Proof.
  intros Hnd. unfold phi_incoming.
  pose proof (get_instr_at (with_incoming bb u nm t inc pre post s) bb pre
                (mkInstr u nm (IPhi t inc)) post) as Hg.
  change (uid (mkInstr u nm (IPhi t inc))) with u in Hg.
  rewrite Hg.
  - reflexivity.
  - unfold with_incoming. simpl. apply lookup_insert_eq.
  - exact Hnd.
Qed.

(** C5, as amended: for every phi node, AddIncoming with preds = [B1, B2]
    and a callback returning v1 for B1 and then v2 for B2 leaves a phi whose
    incoming edges are the edges it had before followed by (v1, last
    fragment of B1) and (v2, last fragment of B2): an edge is on the phi
    afterwards exactly when it was there before or is one of these two. For
    a phi without edges the incoming-edge set is therefore exactly these two
    edges. Each value is wired against the last physical block of its
    predecessor. *)
Theorem AddIncoming_two_preds s p f B1 B2 r1 r2 e1 s1 e2 s2 bb u nm t inc pre post :
  heap s !! B1 = Some r1 ->
  heap s !! B2 = Some r2 ->
  f 0%Z B1 s = Ok (e1, s1) ->
  f 1%Z B2 s1 = Ok (e2, s2) ->
  impl (Phi_Expr p) = VInst bb u ->
  bbs (md s2) !! bb = Some (pre ++ mkInstr u nm (IPhi t inc) :: post) ->
  NoDup (map uid (pre ++ mkInstr u nm (IPhi t inc) :: post)) ->
  AddIncoming p [B1; B2] f s =
    Ok (tt, with_incoming bb u nm t (inc ++ [(impl e1, last r1); (impl e2, last r2)])
              pre post s2) /\
  exists inc',
    phi_incoming
      (with_incoming bb u nm t (inc ++ [(impl e1, last r1); (impl e2, last r2)]) pre post s2)
      (impl (Phi_Expr p)) = Some inc' /\
    (forall edge,
        edge ∈ inc' <-> edge ∈ inc \/ edge = (impl e1, last r1) \/ edge = (impl e2, last r2)) /\
    (inc = [] ->
     forall edge, edge ∈ inc' <-> edge = (impl e1, last r1) \/ edge = (impl e2, last r2)).
Proof.
  intros H1 H2 Hf1 Hf2 Hp Hb Hnd. split.
  - unfold AddIncoming.
    rewrite (bind_ok _ _ _ _ s [last r1; last r2] s)
      by (apply (llvmPredBlocks_last s [B1; B2] [r1; r2]); repeat constructor; assumption).
    rewrite (bind_ok _ _ _ _ s [impl e1; impl e2] s2).
    + rewrite Hp.
      apply (llvm_AddIncoming_at s2 bb u nm t inc pre post); [assumption | assumption | discriminate].
    + assert (Hv2 : incoming_vals f 1%Z [B2] s1 = Ok ([impl e2], s2))
        by (simpl; rewrite (bind_ok _ _ _ _ _ _ _ Hf2); reflexivity).
      change (incoming_vals f 0%Z [B1; B2])
        with (e <- f 0%Z B1 ;; vals <- incoming_vals f 1%Z [B2] ;; ret (impl e :: vals)).
      rewrite (bind_ok _ _ _ _ _ _ _ Hf1).
      rewrite (bind_ok _ _ _ _ _ _ _ Hv2). reflexivity.
  - exists (inc ++ [(impl e1, last r1); (impl e2, last r2)]). split; [|split].
    + rewrite Hp. apply phi_incoming_with_incoming.
      rewrite map_app in *. exact Hnd.
    + intros edge. rewrite elem_of_app, !elem_of_cons, elem_of_nil. tauto.
    + intros -> edge. rewrite elem_of_app, !elem_of_cons, !elem_of_nil. tauto.
Qed.

Lemma AddIncoming_two_preds_witness :
  AddIncoming (mkPhi (mkExpr (VInst 0 7) (TBasic "int"))) [10; 11]
    (fun i _ => ret (mkExpr (VConst i) (TBasic "int")))
    (ex_state [] [iphi 7 []; ibr 4 1]) =
  Ok (tt, with_incoming 0 7 EmptyString (TBasic "int") [(VConst 0, 0); (VConst 1, 4)]
            [] [ibr 4 1] (ex_state [] [iphi 7 []; ibr 4 1])).
Proof.
  apply (AddIncoming_two_preds
           (ex_state [] [iphi 7 []; ibr 4 1])
           (mkPhi (mkExpr (VInst 0 7) (TBasic "int")))
           (fun i _ => ret (mkExpr (VConst i) (TBasic "int")))
           10 11 (mkBasicBlock 0 0 1 0%Z) (mkBasicBlock 3 4 1 1%Z)
           (mkExpr (VConst 0) (TBasic "int")) (ex_state [] [iphi 7 []; ibr 4 1])
           (mkExpr (VConst 1) (TBasic "int")) (ex_state [] [iphi 7 []; ibr 4 1])
           0 7 EmptyString (TBasic "int") [] [] [ibr 4 1]).
  - reflexivity.
  - reflexivity.
  - reflexivity.
  - reflexivity.
  - reflexivity.
  - reflexivity.
  - apply (bool_decide_unpack _). vm_compute. exact I.
Defined.

(** C5, counterexample: the phi already holds the edge (g, block 3) when
    AddIncoming is called with preds = [B1, B2] and a callback returning 0
    and then 1. The call appends: the phi then holds three edges, and the
    edge it had is neither (v1, last fragment of B1) nor (v2, last fragment
    of B2), so its incoming-edge set is not exactly these two. *)
Lemma AddIncoming_keeps_old_edges_counterexample :
  phi_incoming (ex_state [] [iphi 7 [(VGlobal "g", 3)]; ibr 4 1]) (VInst 0 7) =
    Some [(VGlobal "g", 3)] /\
  AddIncoming (mkPhi (mkExpr (VInst 0 7) (TBasic "int"))) [10; 11]
    (fun i _ => ret (mkExpr (VConst i) (TBasic "int")))
    (ex_state [] [iphi 7 [(VGlobal "g", 3)]; ibr 4 1]) =
  Ok (tt, with_incoming 0 7 EmptyString (TBasic "int")
            [(VGlobal "g", 3); (VConst 0, 0); (VConst 1, 4)]
            [] [ibr 4 1] (ex_state [] [iphi 7 [(VGlobal "g", 3)]; ibr 4 1])) /\
  phi_incoming
    (with_incoming 0 7 EmptyString (TBasic "int")
       [(VGlobal "g", 3); (VConst 0, 0); (VConst 1, 4)]
       [] [ibr 4 1] (ex_state [] [iphi 7 [(VGlobal "g", 3)]; ibr 4 1]))
    (VInst 0 7) =
    Some [(VGlobal "g", 3); (VConst 0, 0); (VConst 1, 4)] /\
  ~ (forall edge : Value * nat,
        edge ∈ [(VGlobal "g", 3); (VConst 0%Z, 0); (VConst 1%Z, 4)] <->
        edge = (VConst 0%Z, 0) \/ edge = (VConst 1%Z, 4)).
Proof.
  split; [reflexivity|].
  split; [reflexivity|].
  split; [reflexivity|].
  intros H.
  destruct (proj1 (H (VGlobal "g", 3))) as [E|E];
    [apply elem_of_cons; left; reflexivity | discriminate E | discriminate E].
Qed.

(** ** The function check *)

Lemma Jump_other_function s jmpb r :
  heap s !! jmpb = Some r ->
  Func (bld s) <> fn r ->
  Jump jmpb s = Panicked "mismatched function".
Proof.
  intros Hh Hf. unfold Jump, get, deref. unfold bind at 1 2.
  rewrite Hh. apply Nat.eqb_neq in Hf. rewrite Hf. reflexivity.
Qed.

Lemma If_other_function s cond thenb elseb t e :
  heap s !! thenb = Some t ->
  heap s !! elseb = Some e ->
  Func (bld s) <> fn t \/ Func (bld s) <> fn e ->
  If cond thenb elseb s = Panicked "mismatched function".
Proof.
  intros Ht He Hf. unfold If, get, deref. unfold bind at 1 2.
  rewrite Ht.
  destruct (Nat.eqb_spec (Func (bld s)) (fn t)) as [Eq|Ne]; [|reflexivity].
  simpl. unfold bind at 1. rewrite He.
  destruct (Nat.eqb_spec (Func (bld s)) (fn e)) as [Eq'|Ne']; [|reflexivity].
  tauto.
Qed.

Lemma SetBlock_other_function s blk r :
  heap s !! blk = Some r ->
  Func (bld s) <> fn r ->
  SetBlock blk s = Panicked "mismatched function".
Proof.
  intros Hh Hf. unfold SetBlock.
  assert (Hd : when_debug (r0 <- deref blk ;; logf (LogBlock (idx r0))) s =
               Ok (tt, traced (LogBlock (idx r)) s)).
  { unfold when_debug, get, bind, deref, logf, modify, traced.
    destruct (debugInstr s); [rewrite Hh|]; reflexivity. }
  rewrite (bind_ok _ _ _ _ _ _ _ Hd).
  apply (SetBlockEx_other_function _ _ r).
  - unfold traced. destruct (debugInstr s); exact Hh.
  - unfold traced. destruct (debugInstr s); exact Hf.
Qed.

(** C2, as amended: each operation of the builder that takes logical-block
    arguments -- SetBlockEx (any policy, any setBlk), SetBlock, Jump, and If
    (for either target) -- aborts with the panic "mismatched function" when
    it is handed a block whose parent function differs from the function the
    builder is bound to; it never returns. *)
Theorem builder_checks_function s blk blk' r r' :
  heap s !! blk = Some r ->
  heap s !! blk' = Some r' ->
  Func (bld s) <> fn r ->
  (forall pos setBlk, SetBlockEx blk pos setBlk s = Panicked "mismatched function") /\
  SetBlock blk s = Panicked "mismatched function" /\
  Jump blk s = Panicked "mismatched function" /\
  (forall cond, If cond blk blk' s = Panicked "mismatched function") /\
  (forall cond, If cond blk' blk s = Panicked "mismatched function").
Proof.
  intros Hh Hh' Hf. repeat split; intros.
  - apply (SetBlockEx_other_function _ _ _ _ _ Hh Hf).
  - apply (SetBlock_other_function _ _ _ Hh Hf).
  - apply (Jump_other_function _ _ _ Hh Hf).
  - apply (If_other_function _ _ _ _ _ _ Hh Hh'). left. exact Hf.
  - apply (If_other_function _ _ _ _ _ _ Hh' Hh). right. exact Hf.
Qed.

Lemma builder_checks_function_witness :
  Jump 20 (ex_state [] [ibr 4 1]) = Panicked "mismatched function".
Proof.
  apply (builder_checks_function (ex_state [] [ibr 4 1]) 20 10
           (mkBasicBlock 5 5 2 0%Z) (mkBasicBlock 0 0 1 0%Z)).
  - reflexivity.
  - reflexivity.
  - discriminate.
Defined.

(** C2, counterexample: the builder is bound to function 1 and the
    predecessor handed to AddIncoming is the block at address 20, whose
    parent is function 2 (Jump to it aborts). AddIncoming makes no check: the
    call returns and the phi is wired to that block's last fragment. *)
Lemma AddIncoming_accepts_foreign_block :
  Func (bld (ex_state [] [iphi 7 []; ibr 4 1])) = 1 /\
  Parent 20 (ex_state [] [iphi 7 []; ibr 4 1]) = Ok (2, ex_state [] [iphi 7 []; ibr 4 1]) /\
  Jump 20 (ex_state [] [iphi 7 []; ibr 4 1]) = Panicked "mismatched function" /\
  AddIncoming (mkPhi (mkExpr (VInst 0 7) (TBasic "int"))) [20]
    (fun _ _ => ret (mkExpr (VConst 9) (TBasic "int")))
    (ex_state [] [iphi 7 []; ibr 4 1]) =
  Ok (tt, with_incoming 0 7 EmptyString (TBasic "int") [(VConst 9, 5)]
            [] [ibr 4 1] (ex_state [] [iphi 7 []; ibr 4 1])).
Proof. repeat split. Qed.

(** ** What emission leaves alone *)

Section EmissionFrame.

(** A relation that does not look at the module, the trace or the
    insertion point. *)
Variable R : State -> State -> Prop.
Hypothesis R_refl : forall s, R s s.
Hypothesis R_trans : forall s1 s2 s3, R s1 s2 -> R s2 s3 -> R s1 s3.
Hypothesis R_md : forall s m, R s (set_md m s).
Hypothesis R_log : forall s l, R s (set_log l s).
Hypothesis R_impl : forall s p, R s (set_bld (with_impl p (bld s)) s).

Lemma preserves_emit k : Preserves R (emit k).
Proof.
  intros s a s' H. unfold emit in H.
  destruct (bbs (md s) !! ip_block (b_impl (bld s))) as [l|]; [|discriminate].
  destruct (split_at (b_impl (bld s)) l) as [[pre post]|]; [|discriminate].
  inversion H. apply R_md.
Qed.

Lemma preserves_emit_named nm k : Preserves R (emit_named nm k).
Proof.
  intros s a s' H. unfold emit_named in H.
  destruct (bbs (md s) !! ip_block (b_impl (bld s))) as [l|]; [|discriminate].
  destruct (split_at (b_impl (bld s)) l) as [[pre post]|]; [|discriminate].
  inversion H. apply R_md.
Qed.

Lemma preserves_logf e : Preserves R (logf e).
Proof. apply preserves_modify. intros s. apply R_log. Qed.

Lemma preserves_set_impl p : Preserves R (set_impl p).
Proof. apply preserves_modify. intros s. apply R_impl. Qed.

Hint Resolve preserves_emit preserves_emit_named preserves_logf preserves_set_impl : frame.

Lemma preserves_CreateInsertValue V v i nm : Preserves R (CreateInsertValue V v i nm).
Proof. unfold CreateInsertValue. frame. Qed.

Hint Resolve preserves_CreateInsertValue : frame.

Lemma preserves_aggregate_loop vals :
  forall V i, Preserves R (aggregate_loop V i vals).
Proof. induction vals as [|v vals IH]; intros V i; simpl; frame. Qed.

Lemma preserves_CreateAggregateRet vals : Preserves R (CreateAggregateRet vals).
Proof.
  pose proof (preserves_aggregate_loop vals).
  unfold CreateAggregateRet. frame.
Qed.

Hint Resolve preserves_CreateAggregateRet : frame.

Lemma preserves_SetInsertPointAtEnd bb : Preserves R (SetInsertPointAtEnd bb).
Proof. unfold SetInsertPointAtEnd. frame. Qed.

Lemma preserves_SetInsertPointBefore v : Preserves R (SetInsertPointBefore v).
Proof. unfold SetInsertPointBefore. frame. Qed.

Lemma preserves_llvm_AddIncoming phi vals blocks :
  Preserves R (llvm_AddIncoming phi vals blocks).
Proof.
  unfold llvm_AddIncoming. frame.
  apply preserves_modify. intros s. apply R_md.
Qed.

Lemma preserves_Call fn args : Preserves R (Call fn args).
Proof. unfold Call, CreateCall. frame. Qed.

Lemma preserves_getField x i : Preserves R (getField x i).
Proof. unfold getField, CreateExtractValue. frame. Qed.

Hint Resolve preserves_SetInsertPointAtEnd preserves_SetInsertPointBefore
  preserves_llvm_AddIncoming preserves_Call preserves_getField : frame.

Lemma preserves_Unreachable : Preserves R Unreachable.
Proof. unfold Unreachable, CreateUnreachable. frame. Qed.

Lemma preserves_Panic v : Preserves R (Panic v).
Proof. unfold Panic, CreateUnreachable. frame. Qed.

Lemma preserves_Go fn args : Preserves R (Go fn args).
Proof. unfold Go, logCall. frame. Qed.

Lemma preserves_Extract x i : Preserves R (Extract x i).
Proof. unfold Extract. frame. Qed.

Lemma preserves_Jump jmpb : Preserves R (Jump jmpb).
Proof. unfold Jump, CreateBr. frame. Qed.

Lemma preserves_If cond thenb elseb : Preserves R (If cond thenb elseb).
Proof. unfold If, CreateCondBr. frame. Qed.

Lemma preserves_Builder_Phi t : Preserves R (Builder_Phi t).
Proof. unfold Builder_Phi, CreatePHI. frame. Qed.

Lemma preserves_incoming_vals f preds :
  (forall i b, Preserves R (f i b)) ->
  forall i, Preserves R (incoming_vals f i preds).
Proof. intros Hf. induction preds as [|p preds IH]; intros i; simpl; frame. Qed.

Lemma preserves_AddIncoming p preds f :
  (forall i b, Preserves R (f i b)) ->
  Preserves R (AddIncoming p preds f).
Proof.
  intros Hf. pose proof (preserves_incoming_vals f preds Hf).
  unfold AddIncoming. frame.
Qed.

Lemma preserves_llvmParams checkExpr vals params :
  (forall v t, Preserves R (checkExpr v t)) ->
  forall base, Preserves R (llvmParams checkExpr base vals params).
Proof. intros Hc. induction vals as [|v vals IH]; intros base; simpl; frame. Qed.

Lemma preserves_Return checkExpr results :
  (forall v t, Preserves R (checkExpr v t)) ->
  Preserves R (Return checkExpr results).
Proof.
  intros Hc. pose proof (preserves_llvmParams checkExpr) as Hp.
  unfold Return, CreateRetVoid, CreateRet. frame.
Qed.

(** The positioning part of [SetBlockEx]: everything but the re-binding of
    the current block. *)
Lemma preserves_SetBlockEx_false blk pos : Preserves R (SetBlockEx blk pos false).
Proof. unfold SetBlockEx. frame. Qed.

Lemma preserves_SetBlockEx blk pos setBlk :
  (forall s k, R s (set_bld (with_blk k (bld s)) s)) ->
  Preserves R (SetBlockEx blk pos setBlk).
Proof.
  intros Hblk. unfold SetBlockEx, set_blk. frame.
  apply preserves_modify. intros s. apply Hblk.
Qed.

Lemma preserves_SetBlock blk :
  (forall s k, R s (set_bld (with_blk k (bld s)) s)) ->
  Preserves R (SetBlock blk).
Proof.
  intros Hblk. pose proof (preserves_SetBlockEx blk 0%Z true Hblk).
  unfold SetBlock. frame.
Qed.

End EmissionFrame.

(** ** The current block *)

Lemma same_blk_refl s : same_blk s s.
Proof. reflexivity. Qed.

Lemma same_blk_trans s1 s2 s3 : same_blk s1 s2 -> same_blk s2 s3 -> same_blk s1 s3.
Proof. unfold same_blk. congruence. Qed.

Lemma bind_inv A B (m : M A) (k : A -> M B) s b s' :
  bind m k s = Ok (b, s') -> exists a s1, m s = Ok (a, s1) /\ k a s1 = Ok (b, s').
Proof.
  unfold bind. destruct (m s) as [[a s1]| | |]; try discriminate.
  intros H. exists a, s1. auto.
Qed.

Lemma same_heap_refl s : same_heap s s.
Proof. reflexivity. Qed.

Lemma same_heap_trans s1 s2 s3 : same_heap s1 s2 -> same_heap s2 s3 -> same_heap s1 s3.
Proof. unfold same_heap. congruence. Qed.

(** The side conditions of the frame rules, for the two relations in use. *)
Ltac frame_side :=
  try solve [ exact same_blk_refl | exact same_blk_trans
            | exact same_heap_refl | exact same_heap_trans
            | intros; reflexivity | assumption ].

(** With [setBlk] set, a positioning call that returns has bound the block. *)
Lemma SetBlockEx_binds k pos s s' :
  SetBlockEx k pos true s = Ok (tt, s') -> blk (bld s') = k.
Proof.
  unfold SetBlockEx. intros H.
  apply bind_inv in H as (f & s1 & _ & H).
  apply bind_inv in H as (r & s2 & _ & H).
  destruct (negb (f =? fn r)); [discriminate|].
  apply bind_inv in H as ([] & s3 & _ & H).
  inversion H. reflexivity.
Qed.

Lemma SetBlock_binds k s s' :
  SetBlock k s = Ok (tt, s') -> blk (bld s') = k.
Proof.
  unfold SetBlock. intros H.
  apply bind_inv in H as ([] & s1 & _ & H).
  apply (SetBlockEx_binds _ _ _ _ H).
Qed.

(** C10: every operation other than SetBlock and SetBlockEx with setBlk set
    -- Jump, If, Return, Panic, Unreachable, Extract, and also Go, Phi and
    AddIncoming -- leaves the builder's current block as it was; so does
    SetBlockEx with setBlk false. SetBlock, and SetBlockEx with setBlk true,
    bind the block they are given. The coercion behind Return and the
    callback of AddIncoming are client code and are taken not to re-bind
    the block themselves. *)
Theorem blk_changes_only_by_SetBlock checkExpr op s s' :
  (forall v t, Preserves same_blk (checkExpr v t)) ->
  callbacks_preserve same_blk op ->
  run_op checkExpr op s = Ok (tt, s') ->
  blk (bld s') =
    match op with
    | DoSetBlock b => b
    | DoSetBlockEx b _ true => b
    | _ => blk (bld s)
    end.
Proof.
  intros Hc Hcb H.
  assert (Hframe : forall m : M unit, Preserves same_blk m ->
                     m s = Ok (tt, s') -> blk (bld s') = blk (bld s))
    by (intros m Hm Hr; apply (Hm _ _ _ Hr)).
  destruct op; simpl in H.
  - apply (SetBlock_binds _ _ _ H).
  - destruct setBlk.
    + apply (SetBlockEx_binds _ _ _ _ H).
    + revert H. apply Hframe.
      apply preserves_SetBlockEx_false; frame_side.
  - revert H. apply Hframe.
    apply preserves_Panic; frame_side.
  - revert H. apply Hframe.
    apply preserves_Unreachable; frame_side.
  - revert H. apply Hframe.
    apply preserves_Go; frame_side.
  - revert H. apply Hframe.
    apply preserves_Return; frame_side.
  - revert H. apply Hframe.
    apply preserves_bind; [apply same_blk_trans | | intros; apply preserves_ret, same_blk_refl].
    apply preserves_Extract; frame_side.
  - revert H. apply Hframe.
    apply preserves_Jump; frame_side.
  - revert H. apply Hframe.
    apply preserves_If; frame_side.
  - revert H. apply Hframe.
    apply preserves_bind; [apply same_blk_trans | | intros; apply preserves_ret, same_blk_refl].
    apply preserves_Builder_Phi; frame_side.
  - revert H. apply Hframe.
    apply preserves_AddIncoming; frame_side.
Qed.

Lemma retype_preserves R :
  (forall s, R s s) -> forall v t, Preserves R (retype v t).
Proof. intros HR v t s a s' H. inversion H. apply HR. Qed.

Lemma blk_changes_only_by_SetBlock_witness :
  blk (bld (emitted [IBr 3] [istore 1] [] (ex_state [] [istore 1]))) = 10.
Proof.
  apply (blk_changes_only_by_SetBlock retype (DoJump 11) (ex_state [] [istore 1])
           (emitted [IBr 3] [istore 1] [] (ex_state [] [istore 1]))).
  - apply retype_preserves, same_blk_refl.
  - exact I.
  - reflexivity.
Defined.

(** ** Block identity *)

(** No operation writes to a logical block. *)
Lemma run_op_same_heap checkExpr op :
  (forall v t, Preserves same_heap (checkExpr v t)) ->
  callbacks_preserve same_heap op ->
  Preserves same_heap (run_op checkExpr op).
Proof.
  intros Hc Hcb.
  assert (Hblk : forall s k, same_heap s (set_bld (with_blk k (bld s)) s))
    by reflexivity.
  destruct op; simpl.
  - apply preserves_SetBlock; frame_side.
  - apply preserves_SetBlockEx; frame_side.
  - apply preserves_Panic; frame_side.
  - apply preserves_Unreachable; frame_side.
  - apply preserves_Go; frame_side.
  - apply preserves_Return; frame_side.
  - apply preserves_bind; [apply same_heap_trans | | intros; apply preserves_ret, same_heap_refl].
    apply preserves_Extract; frame_side.
  - apply preserves_Jump; frame_side.
  - apply preserves_If; frame_side.
  - apply preserves_bind; [apply same_heap_trans | | intros; apply preserves_ret, same_heap_refl].
    apply preserves_Builder_Phi; frame_side.
  - apply preserves_AddIncoming; frame_side.
Qed.

Lemma run_ops_same_heap checkExpr ops :
  (forall v t, Preserves same_heap (checkExpr v t)) ->
  Forall (callbacks_preserve same_heap) ops ->
  Preserves same_heap (run_ops checkExpr ops).
Proof.
  intros Hc. induction 1 as [|op ops Hop _ IH]; simpl.
  - apply preserves_ret, same_heap_refl.
  - apply preserves_bind; [apply same_heap_trans | | intros _; exact IH].
    apply run_op_same_heap; assumption.
Qed.

(** C9: for any logical block, what Index() and Parent() return is the same
    before and after any number of operations of the builder: no operation
    writes the idx or fn field of a block (nor any other field). The
    coercion behind Return and the callback of AddIncoming are client code
    and are taken not to write to blocks themselves. *)
Theorem block_identity_stable checkExpr ops s s' :
  (forall v t, Preserves same_heap (checkExpr v t)) ->
  Forall (callbacks_preserve same_heap) ops ->
  run_ops checkExpr ops s = Ok (tt, s') ->
  forall p, index_of s' p = index_of s p /\ parent_of s' p = parent_of s p.
Proof.
  intros Hc Hcb Hrun p.
  pose proof (run_ops_same_heap checkExpr ops Hc Hcb _ _ _ Hrun) as Hheap.
  unfold same_heap in Hheap.
  unfold index_of, parent_of, Index, Parent, bind, deref. rewrite Hheap.
  destruct (heap s !! p); split; reflexivity.
Qed.

Lemma block_identity_stable_witness :
  index_of ex_final 11 = index_of (ex_state [TBasic "int"] [istore 1]) 11 /\
  parent_of ex_final 11 = parent_of (ex_state [TBasic "int"] [istore 1]) 11.
Proof.
  apply (block_identity_stable retype ex_ops (ex_state [TBasic "int"] [istore 1]) ex_final).
  - apply retype_preserves, same_heap_refl.
  - repeat constructor.
  - vm_compute. reflexivity.
Defined.

(** * Further properties of the builder *)

(** ** The cursor after emission and after positioning *)

Lemma cursor_at_emitted s ks pre post :
  cursor_at s pre post ->
  cursor_at (emitted ks pre post s) (pre ++ fresh_instrs (next_uid (md s)) ks) post.
Proof.
  intros Hc. pose proof Hc as (Hb & Hsplit & Hfresh).
  unfold cursor_at, emitted. simpl. repeat split.
  - rewrite lookup_insert_eq, <- app_assoc. reflexivity.
  - rewrite <- app_assoc. apply (split_at_emitted _ _ _ ks Hc).
  - destruct (b_impl (bld s)); [exact I | lia].
Qed.

Lemma last_instr_snoc (l : list Instr) (t : Instr) :
  last_instr (l ++ [t]) = Some t.
Proof.
  induction l as [|x l IH]; [reflexivity|].
  simpl. rewrite IH. destruct (l ++ [t]) eqn:E; [|reflexivity].
  destruct l; discriminate.
Qed.

Lemma SetBlockEx_positioned s blk r pos setBlk p :
  heap s !! blk = Some r ->
  Func (bld s) = fn r ->
  match pos with
  | AtEnd => SetInsertPointAtEnd (last r)
  | AtStart => i <- FirstInstruction (first r) ;; SetInsertPointBefore i
  | BeforeLast => i <- LastInstruction (last r) ;; SetInsertPointBefore i
  | afterInit => i <- instrAfterInit (first r) ;; SetInsertPointBefore i
  | _ => panic "SetBlockEx: invalid pos"
  end s = Ok (tt, set_bld (with_impl p (bld s)) s) ->
  SetBlockEx blk pos setBlk s = Ok (tt, positioned p blk setBlk s).
Proof.
  intros Hh Hf Hp. rewrite (SetBlockEx_same_function _ _ _ _ _ Hh Hf).
  rewrite (bind_ok _ _ _ _ _ _ _ Hp). unfold positioned.
  destruct setBlk; reflexivity.
Qed.

Lemma cursor_at_positioned s p blk setBlk pre post :
  bbs (md s) !! ip_block p = Some (pre ++ post) ->
  split_at p (pre ++ post) = Some (pre, post) ->
  match p with IP_before _ u => u < next_uid (md s) | IP_end _ => True end ->
  cursor_at (positioned p blk setBlk s) pre post.
Proof.
  intros Hb Hs Hf. unfold cursor_at, positioned.
  destruct setBlk; simpl; auto.
Qed.

(** AtEnd: the cursor goes to the end of the block's last fragment, which may
    be empty; what is emitted next is appended there. *)
Theorem SetBlockEx_AtEnd_appends s blk r l setBlk :
  heap s !! blk = Some r ->
  Func (bld s) = fn r ->
  bbs (md s) !! last r = Some l ->
  SetBlockEx blk AtEnd setBlk s = Ok (tt, positioned (IP_end (last r)) blk setBlk s) /\
  cursor_at (positioned (IP_end (last r)) blk setBlk s) l [].
Proof.
  intros Hh Hf Hb. split.
  - apply (SetBlockEx_positioned _ _ _ _ _ _ Hh Hf).
    unfold SetInsertPointAtEnd.
    rewrite (bind_ok _ _ _ _ _ _ _ (get_block_eq _ _ _ Hb)). reflexivity.
  - apply cursor_at_positioned; simpl; rewrite ?app_nil_r; auto.
Qed.

Lemma SetBlockEx_AtEnd_appends_witness :
  SetBlockEx 11 AtEnd true (ex_state [] [istore 1]) =
    Ok (tt, positioned (IP_end 4) 11 true (ex_state [] [istore 1])) /\
  cursor_at (positioned (IP_end 4) 11 true (ex_state [] [istore 1])) [] [].
Proof.
  apply (SetBlockEx_AtEnd_appends (ex_state [] [istore 1]) 11
           (mkBasicBlock 3 4 1 1%Z) [] true); reflexivity.
Defined.

(** AtStart: the cursor goes before the first instruction of the block's
    first fragment; what is emitted next comes first in the block. *)
Theorem SetBlockEx_AtStart_prepends s blk r x rest setBlk :
  heap s !! blk = Some r ->
  Func (bld s) = fn r ->
  bbs (md s) !! first r = Some (x :: rest) ->
  block_ok s (x :: rest) ->
  SetBlockEx blk AtStart setBlk s =
    Ok (tt, positioned (IP_before (first r) (uid x)) blk setBlk s) /\
  cursor_at (positioned (IP_before (first r) (uid x)) blk setBlk s) [] (x :: rest).
Proof.
  intros Hh Hf Hb [Hnd Hlt]. split.
  - apply (SetBlockEx_positioned _ _ _ _ _ _ Hh Hf).
    unfold FirstInstruction.
    rewrite (bind_ok _ _ _ _ s (handle_of (first r) (head (x :: rest))) s)
      by (rewrite (bind_ok _ _ _ _ _ _ _ (get_block_eq _ _ _ Hb)); reflexivity).
    apply (SetInsertPointBefore_at s (first r) [] x rest Hb Hnd).
  - apply cursor_at_positioned; simpl.
    + exact Hb.
    + rewrite Nat.eqb_refl. reflexivity.
    + apply Forall_cons in Hlt as [Hx _]. exact Hx.
Qed.

Lemma SetBlockEx_AtStart_prepends_witness :
  SetBlockEx 10 AtStart false (ex_state [] [istore 1; ibr 4 1]) =
    Ok (tt, positioned (IP_before 0 1) 10 false (ex_state [] [istore 1; ibr 4 1])) /\
  cursor_at (positioned (IP_before 0 1) 10 false (ex_state [] [istore 1; ibr 4 1]))
            [] [istore 1; ibr 4 1].
Proof.
  apply (SetBlockEx_AtStart_prepends (ex_state [] [istore 1; ibr 4 1]) 10
           (mkBasicBlock 0 0 1 0%Z) (istore 1) [ibr 4 1] false).
  - reflexivity.
  - reflexivity.
  - reflexivity.
  - split.
    + apply (bool_decide_unpack _). vm_compute. exact I.
    + repeat constructor; simpl; lia.
Defined.

(** BeforeLast: the cursor goes before the last instruction of the block's
    last fragment; what is emitted next lands between the rest of the
    fragment and that instruction (its terminator, in a finished block). *)
Theorem SetBlockEx_BeforeLast_inserts s blk r pre t setBlk :
  heap s !! blk = Some r ->
  Func (bld s) = fn r ->
  bbs (md s) !! last r = Some (pre ++ [t]) ->
  block_ok s (pre ++ [t]) ->
  SetBlockEx blk BeforeLast setBlk s =
    Ok (tt, positioned (IP_before (last r) (uid t)) blk setBlk s) /\
  cursor_at (positioned (IP_before (last r) (uid t)) blk setBlk s) pre [t].
Proof.
  intros Hh Hf Hb [Hnd Hlt]. split.
  - apply (SetBlockEx_positioned _ _ _ _ _ _ Hh Hf).
    unfold LastInstruction.
    rewrite (bind_ok _ _ _ _ s (handle_of (last r) (last_instr (pre ++ [t]))) s)
      by (rewrite (bind_ok _ _ _ _ _ _ _ (get_block_eq _ _ _ Hb)); reflexivity).
    rewrite last_instr_snoc.
    apply (SetInsertPointBefore_at s (last r) pre t [] Hb Hnd).
  - apply cursor_at_positioned; simpl.
    + exact Hb.
    + pose proof (split_before_app (uid t) [] pre [t]) as Hs.
      rewrite app_nil_l, app_nil_r in Hs. apply Hs.
      * apply (uids_before pre t [] Hnd).
      * constructor.
      * exists t, []. auto.
    + apply Forall_app in Hlt as [_ Ht].
      apply Forall_cons in Ht as [Ht _]. exact Ht.
Qed.

Lemma SetBlockEx_BeforeLast_inserts_witness :
  SetBlockEx 10 BeforeLast false (ex_state [] [istore 1; ibr 4 1]) =
    Ok (tt, positioned (IP_before 0 4) 10 false (ex_state [] [istore 1; ibr 4 1])) /\
  cursor_at (positioned (IP_before 0 4) 10 false (ex_state [] [istore 1; ibr 4 1]))
            [istore 1] [ibr 4 1].
Proof.
  apply (SetBlockEx_BeforeLast_inserts (ex_state [] [istore 1; ibr 4 1]) 10
           (mkBasicBlock 0 0 1 0%Z) [istore 1] (ibr 4 1) false).
  - reflexivity.
  - reflexivity.
  - reflexivity.
  - split.
    + apply (bool_decide_unpack _). vm_compute. exact I.
    + repeat constructor; simpl; lia.
Defined.

(** On an empty fragment only AtEnd finds a position: AtStart and BeforeLast
    ask the fragment for an instruction, get the null handle and position
    before it. *)
Theorem SetBlockEx_empty_fragment s blk r setBlk :
  heap s !! blk = Some r ->
  Func (bld s) = fn r ->
  (bbs (md s) !! first r = Some [] ->
   SetBlockEx blk AtStart setBlk s = Fault NullHandle) /\
  (bbs (md s) !! last r = Some [] ->
   SetBlockEx blk BeforeLast setBlk s = Fault NullHandle).
Proof.
  intros Hh Hf. split; intros Hb;
    rewrite (SetBlockEx_same_function _ _ _ _ _ Hh Hf);
    apply bind_fault.
  - unfold FirstInstruction.
    rewrite (bind_ok _ _ _ _ s VNil s)
      by (rewrite (bind_ok _ _ _ _ _ _ _ (get_block_eq _ _ _ Hb)); reflexivity).
    reflexivity.
  - unfold LastInstruction.
    rewrite (bind_ok _ _ _ _ s VNil s)
      by (rewrite (bind_ok _ _ _ _ _ _ _ (get_block_eq _ _ _ Hb)); reflexivity).
    reflexivity.
Qed.

Lemma SetBlockEx_empty_fragment_witness :
  SetBlockEx 11 AtStart false (ex_state [] [istore 1]) = Fault NullHandle /\
  SetBlockEx 11 BeforeLast false (ex_state [] [istore 1]) = Fault NullHandle.
Proof.
  destruct (SetBlockEx_empty_fragment (ex_state [] [istore 1]) 11
              (mkBasicBlock 3 4 1 1%Z) false) as [H1 H2].
  - reflexivity.
  - reflexivity.
  - split; [apply H1 | apply H2]; reflexivity.
Defined.

(** SetBlock means SetBlockEx(blk, AtEnd, true): in every state and for every
    block, nil included, the two end alike and leave the same state, the
    debug trace apart. *)
Theorem SetBlock_means_SetBlockEx_AtEnd blk s :
  untraced (SetBlock blk s) = untraced (SetBlockEx blk AtEnd true s).
Proof.
  destruct s as [m h fs b d lg].
  destruct (h !! blk) as [r|] eqn:Eh.
  - destruct (Func b =? fn r) eqn:Ef; destruct (bbs m !! last r) as [l|] eqn:Eb;
      destruct d;
      repeat (cbv beta iota delta [SetBlock SetBlockEx when_debug logf modify get
                deref SetInsertPointAtEnd set_impl set_blk get_block bind ret panic
                untraced set_log set_bld md heap funcs bld debugInstr log negb
                with_impl with_blk];
              rewrite ?Eh, ?Ef, ?Eb);
      reflexivity.
  - destruct d;
      repeat (cbv beta iota delta [SetBlock SetBlockEx when_debug logf modify get
                deref SetInsertPointAtEnd set_impl set_blk get_block bind ret panic
                untraced set_log set_bld md heap funcs bld debugInstr log negb];
              rewrite ?Eh);
      reflexivity.
Qed.

(** SetBlock on a block of the builder's own function makes it the current
    block and moves the cursor to the end of its last fragment, so that what
    is emitted next is appended to the block; it emits nothing itself. *)
Theorem SetBlock_binds_and_appends s k r l :
  heap s !! k = Some r ->
  Func (bld s) = fn r ->
  bbs (md s) !! last r = Some l ->
  SetBlock k s =
    Ok (tt, positioned (IP_end (last r)) k true (traced (LogBlock (idx r)) s)) /\
  blk (bld (positioned (IP_end (last r)) k true (traced (LogBlock (idx r)) s))) = k /\
  md (positioned (IP_end (last r)) k true (traced (LogBlock (idx r)) s)) = md s /\
  cursor_at (positioned (IP_end (last r)) k true (traced (LogBlock (idx r)) s)) l [].
Proof.
  intros Hh Hf Hb.
  assert (Hd : when_debug (r0 <- deref k ;; logf (LogBlock (idx r0))) s =
               Ok (tt, traced (LogBlock (idx r)) s)).
  { unfold when_debug, get, bind, deref, logf, modify, traced.
    destruct (debugInstr s); [rewrite Hh|]; reflexivity. }
  assert (Hh' : heap (traced (LogBlock (idx r)) s) !! k = Some r)
    by (unfold traced; destruct (debugInstr s); exact Hh).
  assert (Hf' : Func (bld (traced (LogBlock (idx r)) s)) = fn r)
    by (unfold traced; destruct (debugInstr s); exact Hf).
  assert (Hb' : bbs (md (traced (LogBlock (idx r)) s)) !! last r = Some l)
    by (unfold traced; destruct (debugInstr s); exact Hb).
  repeat split.
  - unfold SetBlock. rewrite (bind_ok _ _ _ _ _ _ _ Hd).
    apply (SetBlockEx_positioned _ _ _ _ _ _ Hh' Hf').
    unfold SetInsertPointAtEnd.
    rewrite (bind_ok _ _ _ _ _ _ _ (get_block_eq _ _ _ Hb')). reflexivity.
  - unfold traced. destruct (debugInstr s); reflexivity.
  - simpl. rewrite app_nil_r. exact Hb'.
  - simpl. rewrite app_nil_r. reflexivity.
Qed.

Lemma SetBlock_binds_and_appends_witness :
  SetBlock 11 (ex_state [] [istore 1]) =
    Ok (tt, positioned (IP_end 4) 11 true (ex_state [] [istore 1])) /\
  blk (bld (positioned (IP_end 4) 11 true (ex_state [] [istore 1]))) = 11 /\
  md (positioned (IP_end 4) 11 true (ex_state [] [istore 1])) =
    md (ex_state [] [istore 1]) /\
  cursor_at (positioned (IP_end 4) 11 true (ex_state [] [istore 1])) [] [].
Proof.
  apply (SetBlock_binds_and_appends (ex_state [] [istore 1]) 11
           (mkBasicBlock 3 4 1 1%Z) []); reflexivity.
Defined.

(** ** The initializer test and the scan, read backwards *)

Lemma notInit_decides s bb x b s' :
  get_instr (VInst bb (uid x)) s = Ok (x, s) ->
  notInit (VInst bb (uid x)) s = Ok (b, s') ->
  s' = s /\ (b = false <-> init_call s x).
Proof.
  intros Hg Hn. rewrite (notInit_instr _ _ _ Hg) in Hn.
  assert (Hother : Ok (true, s) = Ok (b, s') ->
                   ~ init_call s x -> s' = s /\ (b = false <-> init_call s x)).
  { intros H Hni. inversion H; subst. split; [reflexivity|].
    split; [discriminate | intros Hi; destruct (Hni Hi)]. }
  destruct (opcode_of (kind x)) eqn:Hop;
    try (apply Hother; [exact Hn | intros [Hc _]; congruence]).
  destruct (operands_of (kind x)) as [|c [|c' ops]] eqn:Hops;
    try (apply Hother; [exact Hn | intros [_ (c0 & nm & p & Hc & _)]; congruence]).
  destruct (Name c s) as [[nm s1]| | |] eqn:En; try discriminate.
  inversion Hn; subst. split; [reflexivity|].
  assert (Hvn : value_name s' c = Some nm) by (unfold value_name; rewrite En; reflexivity).
  rewrite negb_false_iff, HasSuffix_spec. split.
  - intros [p Hp]. split; [exact Hop|]. exists c, nm, p. auto.
  - intros [_ (c0 & nm0 & p & Hc & Hnm & Hp)].
    rewrite Hops in Hc. injection Hc as <-. rewrite Hvn in Hnm. injection Hnm as <-.
    exists p. exact Hp.
Qed.

(** notInit answers false exactly for the initializer calls: a call
    instruction with one operand -- the callee, so a call without arguments
    -- whose callee's name ends with ".init". Every other instruction,
    a call with arguments to such a function included, gets true. The test
    only reads, and it has an answer whenever the operands can be named. *)
Theorem notInit_false_iff_init_call s bb pre x post :
  bbs (md s) !! bb = Some (pre ++ x :: post) ->
  NoDup (map uid (pre ++ x :: post)) ->
  (forall b s', notInit (VInst bb (uid x)) s = Ok (b, s') ->
                s' = s /\ (b = false <-> init_call s x)) /\
  (operands_named s x -> exists b, notInit (VInst bb (uid x)) s = Ok (b, s)).
Proof.
  intros Hb Hnd. pose proof (get_instr_at _ _ _ _ _ Hb Hnd) as Hg. split.
  - intros b s'. apply (notInit_decides _ _ _ _ _ Hg).
  - intros Hnamed. rewrite (notInit_instr _ _ _ Hg).
    destruct (opcode_of (kind x)); eauto.
    destruct (operands_of (kind x)) as [|c [|c' ops]] eqn:Hops; eauto.
    unfold operands_named in Hnamed. rewrite Hops in Hnamed.
    apply Forall_cons in Hnamed as [[nm Hnm] _]. unfold value_name in Hnm.
    destruct (Name c s) as [[nm' s1]| | |]; try discriminate. eauto.
Qed.

Lemma notInit_false_iff_init_call_witness :
  (forall b s',
      notInit (VInst 0 2)
        (ex_state [] [istore 1; mkInstr 2 EmptyString (ICall (VGlobal "fmt.init") [VConst 0])])
      = Ok (b, s') ->
      s' = ex_state [] [istore 1; mkInstr 2 EmptyString (ICall (VGlobal "fmt.init") [VConst 0])] /\
      (b = false <->
       init_call
         (ex_state [] [istore 1; mkInstr 2 EmptyString (ICall (VGlobal "fmt.init") [VConst 0])])
         (mkInstr 2 EmptyString (ICall (VGlobal "fmt.init") [VConst 0])))) /\
  notInit (VInst 0 2)
    (ex_state [] [istore 1; mkInstr 2 EmptyString (ICall (VGlobal "fmt.init") [VConst 0])])
  = Ok (true,
        ex_state [] [istore 1; mkInstr 2 EmptyString (ICall (VGlobal "fmt.init") [VConst 0])]).
Proof.
  split; [|reflexivity].
  apply (notInit_false_iff_init_call
           (ex_state [] [istore 1; mkInstr 2 EmptyString (ICall (VGlobal "fmt.init") [VConst 0])])
           0 [istore 1] (mkInstr 2 EmptyString (ICall (VGlobal "fmt.init") [VConst 0])) []).
  - reflexivity.
  - apply (bool_decide_unpack _). vm_compute. exact I.
Defined.

Lemma instrAfterInit_loop_sound s bb fuel :
  forall pre x post v s1,
    bbs (md s) !! bb = Some (pre ++ x :: post) ->
    NoDup (map uid (pre ++ x :: post)) ->
    instrAfterInit_loop fuel (VInst bb (uid x)) s = Ok (v, s1) ->
    exists inits M rest,
      post = inits ++ M :: rest /\
      Forall (init_call s) inits /\
      ~ init_call s M /\
      v = VInst bb (uid M) /\ s1 = s.
Proof.
  induction fuel as [|fuel IH]; intros pre x post v s1 Hb Hnd Hrun; [discriminate|].
  rewrite instrAfterInit_loop_S, (NextInstruction_at _ _ _ _ _ Hb Hnd) in Hrun.
  destruct post as [|y post]; [discriminate|]. simpl handle_of in Hrun.
  assert (Hb' : bbs (md s) !! bb = Some ((pre ++ [x]) ++ y :: post))
    by (rewrite <- app_assoc; exact Hb).
  assert (Hnd' : NoDup (map uid ((pre ++ [x]) ++ y :: post)))
    by (rewrite <- app_assoc; exact Hnd).
  destruct (notInit (VInst bb (uid y)) s) as [[b s2]| | |] eqn:En; try discriminate.
  destruct (notInit_decides _ _ _ _ _ (get_instr_at _ _ _ _ _ Hb' Hnd') En) as [-> Hiff].
  destruct b.
  - inversion Hrun; subst. exists [], y, post. repeat split; [constructor|].
    intros Hi. apply Hiff in Hi. discriminate.
  - destruct (IH _ _ _ _ _ Hb' Hnd' Hrun) as (inits & M & rest & -> & Hin & HM & -> & ->).
    exists (y :: inits), M, rest. repeat split; [|exact HM].
    constructor; [apply Hiff; reflexivity | exact Hin].
Qed.

(** Whenever the after-initialization policy does resolve, it has passed the
    block's first instruction and a run of initializer calls, and stands
    before the first instruction after them that is no initializer call;
    nothing else came of the call. In particular the position is never the
    at-start position. *)
Theorem afterInit_result_sound s blk r l setBlk s' :
  heap s !! blk = Some r ->
  Func (bld s) = fn r ->
  bbs (md s) !! first r = Some l ->
  NoDup (map uid l) ->
  SetBlockEx blk afterInit setBlk s = Ok (tt, s') ->
  exists x inits M rest,
    l = x :: inits ++ M :: rest /\
    Forall (init_call s) inits /\
    ~ init_call s M /\
    uid M <> uid x /\
    s' = positioned (IP_before (first r) (uid M)) blk setBlk s.
Proof.
  intros Hh Hf Hb Hnd Hrun.
  rewrite (SetBlockEx_same_function _ _ _ _ _ Hh Hf) in Hrun.
  apply bind_inv in Hrun as ([] & s2 & Hpos & Hset).
  apply bind_inv in Hpos as (v & s1 & Hscan & Hpos).
  rewrite (instrAfterInit_eq _ _ _ Hb) in Hscan.
  destruct l as [|x post]; [discriminate|]. simpl handle_of in Hscan.
  destruct (instrAfterInit_loop_sound s (first r) _ [] x post v s1 Hb Hnd Hscan)
    as (inits & M & rest & -> & Hin & HM & -> & ->).
  exists x, inits, M, rest. repeat split; try assumption.
  - intros E. simpl in Hnd. apply NoDup_cons in Hnd as [Hx _]. apply Hx.
    rewrite <- E, map_app. apply elem_of_app. right. simpl. left.
  - rewrite (SetInsertPointBefore_at s (first r) (x :: inits) M rest Hb Hnd) in Hpos.
    inversion Hpos; subst s2. unfold positioned.
    destruct setBlk; inversion Hset; reflexivity.
Qed.

Lemma afterInit_result_sound_witness :
  exists x inits M rest,
    [istore 1; icall 2 "fmt.init"; ibr 4 1] = x :: inits ++ M :: rest /\
    Forall (init_call (ex_state [] [istore 1; icall 2 "fmt.init"; ibr 4 1])) inits /\
    ~ init_call (ex_state [] [istore 1; icall 2 "fmt.init"; ibr 4 1]) M /\
    uid M <> uid x /\
    positioned (IP_before 0 4) 10 false (ex_state [] [istore 1; icall 2 "fmt.init"; ibr 4 1]) =
    positioned (IP_before 0 (uid M)) 10 false
      (ex_state [] [istore 1; icall 2 "fmt.init"; ibr 4 1]).
Proof.
  apply (afterInit_result_sound (ex_state [] [istore 1; icall 2 "fmt.init"; ibr 4 1])
           10 (mkBasicBlock 0 0 1 0%Z) [istore 1; icall 2 "fmt.init"; ibr 4 1] false
           (positioned (IP_before 0 4) 10 false
              (ex_state [] [istore 1; icall 2 "fmt.init"; ibr 4 1]))).
  - reflexivity.
  - reflexivity.
  - reflexivity.
  - apply (bool_decide_unpack _). vm_compute. exact I.
  - reflexivity.
Defined.

(** ** Branches *)

(** Jump to a block of the builder's own function emits one unconditional
    branch, to the first fragment of the target, at the cursor, and nothing
    else; the cursor stays behind the branch. *)
Theorem Jump_emits_branch s jmpb r pre post :
  heap s !! jmpb = Some r ->
  Func (bld s) = fn r ->
  cursor_at s pre post ->
  Jump jmpb s =
    Ok (tt, emitted [IBr (first r)] pre post (traced (LogJump (idx r)) s)) /\
  cursor_at (emitted [IBr (first r)] pre post (traced (LogJump (idx r)) s))
            (pre ++ [mkInstr (next_uid (md s)) EmptyString (IBr (first r))]) post.
Proof.
  intros Hh Hf Hc.
  apply (cursor_at_traced (LogJump (idx r))) in Hc.
  split.
  - unfold Jump, get, deref. unfold bind at 1 2. rewrite Hh, Hf, Nat.eqb_refl.
    cbv beta iota delta [negb].
    rewrite (bind_ok _ _ _ _ _ _ _ (when_debug_logf _ s)).
    unfold CreateBr.
    rewrite (bind_ok _ _ _ _ _ _ _ (emit_first _ _ _ _ Hc)). reflexivity.
  - replace (next_uid (md s)) with (next_uid (md (traced (LogJump (idx r)) s)))
      by (unfold traced; destruct (debugInstr s); reflexivity).
    apply (cursor_at_emitted _ [IBr (first r)] _ _ Hc).
Qed.

Lemma Jump_emits_branch_witness :
  Jump 11 (ex_state [] [istore 1]) =
    Ok (tt, emitted [IBr 3] [istore 1] [] (ex_state [] [istore 1])) /\
  cursor_at (emitted [IBr 3] [istore 1] [] (ex_state [] [istore 1]))
            ([istore 1] ++ [mkInstr 100 EmptyString (IBr 3)]) [].
Proof.
  apply (Jump_emits_branch (ex_state [] [istore 1]) 11 (mkBasicBlock 3 4 1 1%Z)
           [istore 1] []).
  - reflexivity.
  - reflexivity.
  - repeat split.
Defined.

(** If with both targets in the builder's own function emits one conditional
    branch on the condition's value, to the first fragments of the two
    targets, at the cursor, and nothing else. *)
Theorem If_emits_conditional_branch s cond thenb elseb t e pre post :
  heap s !! thenb = Some t ->
  heap s !! elseb = Some e ->
  Func (bld s) = fn t ->
  Func (bld s) = fn e ->
  cursor_at s pre post ->
  If cond thenb elseb s =
    Ok (tt, emitted [ICondBr (impl cond) (first t) (first e)] pre post
              (traced (LogIf (impl cond) (idx t) (idx e)) s)).
Proof.
  intros Ht He Hft Hfe Hc.
  apply (cursor_at_traced (LogIf (impl cond) (idx t) (idx e))) in Hc.
  unfold If, get, deref. unfold bind at 1 2. rewrite Ht, <- Hft, Nat.eqb_refl.
  cbv beta iota delta [negb]. unfold bind at 1. rewrite He, <- Hfe, Nat.eqb_refl.
  cbv beta iota delta [negb].
  rewrite (bind_ok _ _ _ _ _ _ _ (when_debug_logf _ s)).
  unfold CreateCondBr.
  rewrite (bind_ok _ _ _ _ _ _ _ (emit_first _ _ _ _ Hc)). reflexivity.
Qed.

Lemma If_emits_conditional_branch_witness :
  If (mkExpr (VConst 1) (TBasic "bool")) 11 10 (ex_state [] [istore 1]) =
    Ok (tt, emitted [ICondBr (VConst 1) 3 0] [istore 1] [] (ex_state [] [istore 1])).
Proof.
  apply (If_emits_conditional_branch (ex_state [] [istore 1])
           (mkExpr (VConst 1) (TBasic "bool")) 11 10
           (mkBasicBlock 3 4 1 1%Z) (mkBasicBlock 0 0 1 0%Z) [istore 1] []).
  - reflexivity.
  - reflexivity.
  - reflexivity.
  - reflexivity.
  - repeat split.
Defined.

(** If looks at its else-target only after its then-target passed the check:
    a then-target of another function aborts the call with "mismatched
    function" whatever the else-target is, nil included; a nil else-target
    behind a good then-target is a nil dereference. *)
Theorem If_checks_then_before_else s cond thenb elseb t :
  heap s !! thenb = Some t ->
  (Func (bld s) <> fn t ->
   If cond thenb elseb s = Panicked "mismatched function") /\
  (Func (bld s) = fn t -> heap s !! elseb = None ->
   If cond thenb elseb s = Fault NilDeref).
Proof.
  intros Ht. split.
  - intros Hf. unfold If, get, deref. unfold bind at 1 2. rewrite Ht.
    apply Nat.eqb_neq in Hf. rewrite Hf. reflexivity.
  - intros Hf He. unfold If, get, deref. unfold bind at 1 2.
    rewrite Ht, Hf, Nat.eqb_refl. cbv beta iota delta [negb].
    unfold bind at 1. rewrite He. reflexivity.
Qed.

Lemma If_checks_then_before_else_witness :
  If (mkExpr (VConst 1) (TBasic "bool")) 20 0 (ex_state [] [istore 1]) =
    Panicked "mismatched function" /\
  If (mkExpr (VConst 1) (TBasic "bool")) 10 0 (ex_state [] [istore 1]) =
    Fault NilDeref.
Proof.
  split.
  - apply (If_checks_then_before_else (ex_state [] [istore 1])
             (mkExpr (VConst 1) (TBasic "bool")) 20 0 (mkBasicBlock 5 5 2 0%Z)).
    + reflexivity.
    + discriminate.
  - apply (If_checks_then_before_else (ex_state [] [istore 1])
             (mkExpr (VConst 1) (TBasic "bool")) 10 0 (mkBasicBlock 0 0 1 0%Z)).
    + reflexivity.
    + reflexivity.
    + reflexivity.
Defined.

(** A nil block is dereferenced before anything else is looked at: handed to
    SetBlockEx (under any policy, the unrecognized ones included), SetBlock,
    Jump, or If as then-target, it ends the call in a nil dereference. *)
Theorem nil_block_is_dereferenced s blk :
  heap s !! blk = None ->
  (forall pos setBlk, SetBlockEx blk pos setBlk s = Fault NilDeref) /\
  SetBlock blk s = Fault NilDeref /\
  Jump blk s = Fault NilDeref /\
  (forall cond elseb, If cond blk elseb s = Fault NilDeref).
Proof.
  intros Hh.
  assert (Hex : forall pos setBlk s0, heap s0 !! blk = None ->
                  SetBlockEx blk pos setBlk s0 = Fault NilDeref).
  { intros pos setBlk s0 H0. unfold SetBlockEx, get, deref. unfold bind at 1 2.
    rewrite H0. reflexivity. }
  repeat split.
  - intros pos setBlk. apply Hex, Hh.
  - unfold SetBlock, when_debug, get. unfold bind at 1 2.
    destruct (debugInstr s).
    + unfold deref. unfold bind at 1. rewrite Hh. reflexivity.
    + apply Hex, Hh.
  - unfold Jump, get, deref. unfold bind at 1 2. rewrite Hh. reflexivity.
  - intros cond elseb. unfold If, get, deref. unfold bind at 1 2.
    rewrite Hh. reflexivity.
Qed.

Lemma nil_block_is_dereferenced_witness :
  SetBlockEx 0 7%Z true (ex_state [] [istore 1]) = Fault NilDeref.
Proof.
  apply (nil_block_is_dereferenced (ex_state [] [istore 1]) 0).
  reflexivity.
Defined.

(** ** Phi nodes *)

Lemma fresh_insert_NoDup s pre post nm k :
  block_ok s (pre ++ post) ->
  NoDup (map uid (pre ++ mkInstr (next_uid (md s)) nm k :: post)).
Proof.
  intros [Hnd Hlt].
  rewrite map_app in *. simpl.
  rewrite <- Permutation_middle. apply NoDup_cons. split; [|exact Hnd].
  rewrite <- map_app. intros Hin.
  apply list_elem_of_In, in_map_iff in Hin as (i & Hi & Hin).
  rewrite Forall_forall in Hlt. apply list_elem_of_In in Hin.
  specialize (Hlt i Hin). lia.
Qed.

Lemma incoming_vals_called f i preds s es s1 :
  called_in_order f i preds s es s1 ->
  incoming_vals f i preds s = Ok (map impl es, s1).
Proof.
  induction 1 as [i s|i b bs s e s1 es s2 Hf _ IH]; simpl; [reflexivity|].
  rewrite (bind_ok _ _ _ _ _ _ _ Hf).
  rewrite (bind_ok _ _ _ _ _ _ _ IH). reflexivity.
Qed.

(** Phi(t) puts a new phi of type t at the cursor and returns the typed
    handle of it; the phi starts without incoming edges. *)
Theorem Phi_creates_empty_phi s t pre post :
  cursor_at s pre post ->
  block_ok s (pre ++ post) ->
  Builder_Phi t s =
    Ok (mkPhi (mkExpr (VInst (ip_block (b_impl (bld s))) (next_uid (md s))) t),
        emitted [IPhi t []] pre post s) /\
  phi_incoming (emitted [IPhi t []] pre post s)
               (VInst (ip_block (b_impl (bld s))) (next_uid (md s))) = Some [].
Proof.
  intros Hc Hok. split.
  - unfold Builder_Phi, CreatePHI.
    rewrite (bind_ok _ _ _ _ _ _ _ (emit_first _ _ _ _ Hc)). reflexivity.
  - unfold phi_incoming.
    pose proof (get_instr_at (emitted [IPhi t []] pre post s)
                  (ip_block (b_impl (bld s))) pre
                  (mkInstr (next_uid (md s)) EmptyString (IPhi t [])) post) as Hg.
    change (uid (mkInstr (next_uid (md s)) EmptyString (IPhi t [])))
      with (next_uid (md s)) in Hg.
    rewrite Hg; [reflexivity | | apply (fresh_insert_NoDup _ _ _ _ _ Hok)].
    unfold emitted. simpl. apply lookup_insert_eq.
Qed.

Lemma Phi_creates_empty_phi_witness :
  Builder_Phi (TBasic "int") (ex_state [] [istore 1]) =
    Ok (mkPhi (mkExpr (VInst 0 100) (TBasic "int")),
        emitted [IPhi (TBasic "int") []] [istore 1] [] (ex_state [] [istore 1])) /\
  phi_incoming (emitted [IPhi (TBasic "int") []] [istore 1] [] (ex_state [] [istore 1]))
               (VInst 0 100) = Some [].
Proof.
  apply (Phi_creates_empty_phi (ex_state [] [istore 1]) (TBasic "int") [istore 1] []).
  - repeat split.
  - split.
    + apply (bool_decide_unpack _). vm_compute. exact I.
    + repeat constructor; simpl; lia.
Defined.

(** AddIncoming appends: the phi keeps the edges it has and gains one edge
    per predecessor, in the order of preds. The value of edge i is what the
    callback returned for (i, preds[i]), the callback being called in that
    order; its block is the last fragment of preds[i], as read before the
    first callback ran. *)
Theorem AddIncoming_appends s p preds rs f es s1 bb u nm t inc pre post :
  preds <> [] ->
  Forall2 (fun b r => heap s !! b = Some r) preds rs ->
  called_in_order f 0%Z preds s es s1 ->
  impl (Phi_Expr p) = VInst bb u ->
  bbs (md s1) !! bb = Some (pre ++ mkInstr u nm (IPhi t inc) :: post) ->
  NoDup (map uid (pre ++ mkInstr u nm (IPhi t inc) :: post)) ->
  AddIncoming p preds f s =
    Ok (tt, with_incoming bb u nm t (inc ++ combine (map impl es) (map last rs))
              pre post s1).
Proof.
  intros Hne Hrs Hcalls Hp Hb Hnd. unfold AddIncoming.
  rewrite (bind_ok _ _ _ _ _ _ _ (llvmPredBlocks_last _ _ _ Hrs)).
  rewrite (bind_ok _ _ _ _ _ _ _ (incoming_vals_called _ _ _ _ _ _ Hcalls)).
  rewrite Hp. apply llvm_AddIncoming_at; [assumption | assumption |].
  destruct Hrs; [congruence | discriminate].
Qed.

Lemma AddIncoming_appends_witness :
  AddIncoming (mkPhi (mkExpr (VInst 0 7) (TBasic "int"))) [11; 10; 11]
    (fun i _ => ret (mkExpr (VConst i) (TBasic "int")))
    (ex_state [] [iphi 7 [(VGlobal "g", 3)]; ibr 4 1]) =
  Ok (tt, with_incoming 0 7 EmptyString (TBasic "int")
            ([(VGlobal "g", 3)] ++ [(VConst 0, 4); (VConst 1, 0); (VConst 2, 4)])
            [] [ibr 4 1] (ex_state [] [iphi 7 [(VGlobal "g", 3)]; ibr 4 1])).
Proof.
  apply (AddIncoming_appends
           (ex_state [] [iphi 7 [(VGlobal "g", 3)]; ibr 4 1])
           (mkPhi (mkExpr (VInst 0 7) (TBasic "int"))) [11; 10; 11]
           [mkBasicBlock 3 4 1 1%Z; mkBasicBlock 0 0 1 0%Z; mkBasicBlock 3 4 1 1%Z]
           (fun i _ => ret (mkExpr (VConst i) (TBasic "int")))
           [mkExpr (VConst 0) (TBasic "int"); mkExpr (VConst 1) (TBasic "int");
            mkExpr (VConst 2) (TBasic "int")]
           (ex_state [] [iphi 7 [(VGlobal "g", 3)]; ibr 4 1])
           0 7 EmptyString (TBasic "int") [(VGlobal "g", 3)] [] [ibr 4 1]).
  - discriminate.
  - repeat constructor.
  - repeat econstructor.
  - reflexivity.
  - reflexivity.
  - apply (bool_decide_unpack _). vm_compute. exact I.
Defined.

(** Phi and AddIncoming fit together: a phi made by Phi(t) at the cursor
    and then wired by AddIncoming holds exactly one edge per predecessor, in
    order, each against its predecessor's last fragment (for callbacks that
    only compute their value). *)
Theorem Phi_then_AddIncoming s t preds rs f es pre post :
  cursor_at s pre post ->
  block_ok s (pre ++ post) ->
  preds <> [] ->
  Forall2 (fun b r => heap s !! b = Some r) preds rs ->
  called_in_order f 0%Z preds (emitted [IPhi t []] pre post s) es
                  (emitted [IPhi t []] pre post s) ->
  exists p s2,
    (p <- Builder_Phi t ;; AddIncoming p preds f ;;; ret p) s = Ok (p, s2) /\
    typ (Phi_Expr p) = t /\
    phi_incoming s2 (impl (Phi_Expr p)) = Some (combine (map impl es) (map last rs)).
Proof.
  intros Hc Hok Hne Hrs Hcalls.
  set (bb := ip_block (b_impl (bld s))). set (n := next_uid (md s)).
  set (s0 := emitted [IPhi t []] pre post s) in *.
  assert (Hnd : NoDup (map uid (pre ++ mkInstr n EmptyString (IPhi t []) :: post)))
    by (apply (fresh_insert_NoDup _ _ _ _ _ Hok)).
  assert (Hb0 : bbs (md s0) !! bb = Some (pre ++ mkInstr n EmptyString (IPhi t []) :: post))
    by (unfold s0, emitted; simpl; apply lookup_insert_eq).
  exists (mkPhi (mkExpr (VInst bb n) t)),
         (with_incoming bb n EmptyString t (combine (map impl es) (map last rs)) pre post s0).
  split; [|split].
  - assert (Hphi : Builder_Phi t s = Ok (mkPhi (mkExpr (VInst bb n) t), s0)).
    { unfold Builder_Phi, CreatePHI.
      rewrite (bind_ok _ _ _ _ _ _ _ (emit_first _ _ _ _ Hc)). reflexivity. }
    rewrite (bind_ok _ _ _ _ _ _ _ Hphi).
    assert (Hadd : AddIncoming (mkPhi (mkExpr (VInst bb n) t)) preds f s0 =
                   Ok (tt, with_incoming bb n EmptyString t
                             ([] ++ combine (map impl es) (map last rs)) pre post s0)).
    { unfold AddIncoming.
      rewrite (bind_ok _ _ _ _ s0 (map last rs) s0)
        by (apply llvmPredBlocks_last; exact Hrs).
      rewrite (bind_ok _ _ _ _ _ _ _ (incoming_vals_called _ _ _ _ _ _ Hcalls)).
      apply llvm_AddIncoming_at; [assumption | assumption |].
      destruct Hrs; [congruence | discriminate]. }
    rewrite (bind_ok _ _ _ _ _ _ _ Hadd). reflexivity.
  - reflexivity.
  - apply phi_incoming_with_incoming.
    rewrite map_app in *. exact Hnd.
Qed.

Lemma Phi_then_AddIncoming_witness :
  exists p s2,
    (p <- Builder_Phi (TBasic "int") ;;
     AddIncoming p [10; 11] (fun i _ => ret (mkExpr (VConst i) (TBasic "int"))) ;;;
     ret p) (ex_state [] [istore 1]) = Ok (p, s2) /\
    typ (Phi_Expr p) = TBasic "int" /\
    phi_incoming s2 (impl (Phi_Expr p)) =
      Some (combine (map impl [mkExpr (VConst 0) (TBasic "int");
                               mkExpr (VConst 1) (TBasic "int")])
                    (map last [mkBasicBlock 0 0 1 0%Z; mkBasicBlock 3 4 1 1%Z])).
Proof.
  apply (Phi_then_AddIncoming (ex_state [] [istore 1]) (TBasic "int") [10; 11]
           [mkBasicBlock 0 0 1 0%Z; mkBasicBlock 3 4 1 1%Z]
           (fun i _ => ret (mkExpr (VConst i) (TBasic "int")))
           [mkExpr (VConst 0) (TBasic "int"); mkExpr (VConst 1) (TBasic "int")]
           [istore 1] []).
  - repeat split.
  - split.
    + apply (bool_decide_unpack _). vm_compute. exact I.
    + repeat constructor; simpl; lia.
  - discriminate.
  - repeat constructor.
  - repeat econstructor.
Defined.

(** llvmPredBlocks answers with one physical block per predecessor, in
    order: the last fragment of each; it only reads. *)
Theorem llvmPredBlocks_reads_last preds :
  forall s bs s',
    llvmPredBlocks preds s = Ok (bs, s') ->
    s' = s /\
    Forall2 (fun p b => exists r, heap s !! p = Some r /\ b = last r) preds bs.
Proof.
  induction preds as [|p preds IH]; intros s bs s' H; simpl in H.
  - inversion H. split; [reflexivity | constructor].
  - apply bind_inv in H as (r & s1 & Hd & H).
    apply bind_inv in H as (bs' & s2 & Hrest & H).
    inversion H; subst. unfold deref in Hd.
    destruct (heap s !! p) as [r0|] eqn:Hp; [|discriminate].
    inversion Hd; subst.
    destruct (IH _ _ _ Hrest) as [-> Hall].
    split; [reflexivity|]. constructor; [eauto | exact Hall].
Qed.

Lemma llvmPredBlocks_reads_last_witness :
  ex_state [] [istore 1] = ex_state [] [istore 1] /\
  Forall2 (fun p b => exists r, heap (ex_state [] [istore 1]) !! p = Some r /\ b = last r)
          [11; 20; 10] [4; 5; 0].
Proof.
  apply (llvmPredBlocks_reads_last [11; 20; 10] (ex_state [] [istore 1]) [4; 5; 0]
           (ex_state [] [istore 1])).
  reflexivity.
Defined.

(** The predecessors are all read before the callback is called for the
    first time: with a nil block anywhere among them AddIncoming ends in a
    nil dereference, whatever the callback is, and the phi is left alone. *)
Theorem AddIncoming_nil_pred p preds f s b :
  b ∈ preds ->
  heap s !! b = None ->
  AddIncoming p preds f s = Fault NilDeref.
Proof.
  intros Hin Hb. unfold AddIncoming. apply bind_fault.
  induction preds as [|q preds IH]; [inversion Hin|]. simpl.
  unfold bind at 1. unfold deref at 1.
  destruct (heap s !! q) as [r|] eqn:Hq; [|reflexivity].
  apply bind_fault. apply IH.
  apply elem_of_cons in Hin as [->|Hin]; [congruence | exact Hin].
Qed.

Lemma AddIncoming_nil_pred_witness :
  AddIncoming (mkPhi (mkExpr (VInst 0 7) (TBasic "int"))) [10; 0; 11]
    (fun _ _ => panic "callback") (ex_state [] [iphi 7 []; ibr 4 1]) = Fault NilDeref.
Proof.
  apply (AddIncoming_nil_pred (mkPhi (mkExpr (VInst 0 7) (TBasic "int"))) [10; 0; 11]
           (fun _ _ => panic "callback") (ex_state [] [iphi 7 []; ibr 4 1]) 0).
  - apply (bool_decide_unpack _). vm_compute. exact I.
  - reflexivity.
Defined.

(** ** Return and the declared results *)

Section ReturnEdges.

Variable checkExpr : Expr -> Type_ -> M Expr.

(** Return with one argument in a function that declares no result asks
    the nil tuple of its signature for result 0: the call ends in a
    nil-pointer dereference, before the coercion is called and before
    anything is emitted. *)
Theorem Return_one_without_result s f v :
  funcs s !! Func (bld s) = Some f ->
  Results f = [] ->
  Return checkExpr [v] s = Fault NilDeref.
Proof.
  intros Hf Hr. unfold Return.
  rewrite (bind_ok _ _ _ _ _ _ _ (when_debug_logf _ s)).
  rewrite (bind_ok _ _ _ _ _ _ _ (Func_Results_traced _ _ _ Hf)).
  rewrite Hr. reflexivity.
Qed.

(** Return with one argument does not compare the number of declared
    results with the number of arguments: it coerces the argument to the
    first declared result type, whatever is declared after it, and emits a
    single-value return of the coerced value. *)
Theorem Return_one_uses_first_result s f T more v r s1 pre post :
  funcs s !! Func (bld s) = Some f ->
  Results f = T :: more ->
  checkExpr v T (traced (LogReturn [impl v]) s) = Ok (r, s1) ->
  cursor_at s1 pre post ->
  Return checkExpr [v] s = Ok (tt, emitted [IRet (impl r)] pre post s1).
Proof.
  intros Hf HT Hchk Hc. unfold Return.
  rewrite (bind_ok _ _ _ _ _ _ _ (when_debug_logf _ s)).
  rewrite (bind_ok _ _ _ _ _ _ _ (Func_Results_traced _ _ _ Hf)).
  rewrite HT. unfold At. simpl nth_error.
  rewrite (bind_ok _ _ _ _ (traced (LogReturn (map impl [v])) s) T
             (traced (LogReturn (map impl [v])) s)) by reflexivity.
  rewrite (bind_ok _ _ _ _ _ _ _ Hchk).
  unfold CreateRet.
  rewrite (bind_ok _ _ _ _ _ _ _ (emit_first _ _ _ _ Hc)). reflexivity.
Qed.

End ReturnEdges.

Lemma Return_one_without_result_witness :
  Return retype [mkExpr (VConst 1) (TBasic "int")] (ex_state [] [istore 1]) =
    Fault NilDeref.
Proof.
  apply (Return_one_without_result retype (ex_state [] [istore 1]) (mkFunction [])).
  - reflexivity.
  - reflexivity.
Defined.

Lemma Return_one_uses_first_result_witness :
  Return retype [mkExpr (VConst 1) (TBasic "untyped int")]
    (ex_state [TBasic "int"; TBasic "error"] [istore 1]) =
  Ok (tt, emitted [IRet (VConst 1)] [istore 1] []
            (ex_state [TBasic "int"; TBasic "error"] [istore 1])).
Proof.
  apply (Return_one_uses_first_result retype
           (ex_state [TBasic "int"; TBasic "error"] [istore 1])
           (mkFunction [TBasic "int"; TBasic "error"]) (TBasic "int") [TBasic "error"]
           (mkExpr (VConst 1) (TBasic "untyped int")) (mkExpr (VConst 1) (TBasic "int"))).
  - reflexivity.
  - reflexivity.
  - reflexivity.
  - repeat split.
Defined.

(** ** What the operations never touch *)

#[local] Hint Resolve preserves_emit preserves_set_impl preserves_SetInsertPointAtEnd
  preserves_SetInsertPointBefore preserves_llvm_AddIncoming preserves_Call
  preserves_getField preserves_Unreachable preserves_Builder_Phi
  preserves_AddIncoming preserves_CreateAggregateRet : frame.

Section GatedFrame.

(** A relation that allows for everything the operations do to the module
    and to the builder, and for what they do under the debug switch. *)
Variable R : State -> State -> Prop.
Hypothesis R_refl : forall s, R s s.
Hypothesis R_trans : forall s1 s2 s3, R s1 s2 -> R s2 s3 -> R s1 s3.
Hypothesis R_md : forall s m, R s (set_md m s).
Hypothesis R_impl : forall s p, R s (set_bld (with_impl p (bld s)) s).
Hypothesis R_blk : forall s k, R s (set_bld (with_blk k (bld s)) s).
Hypothesis R_debug : forall m, Preserves R (when_debug m).

Lemma gated_SetBlockEx blk pos setBlk : Preserves R (SetBlockEx blk pos setBlk).
Proof. apply preserves_SetBlockEx; assumption. Qed.

Lemma gated_run_op checkExpr op :
  (forall v t, Preserves R (checkExpr v t)) ->
  callbacks_preserve R op ->
  Preserves R (run_op checkExpr op).
Proof.
  intros Hc Hcb. pose proof gated_SetBlockEx as Hex.
  pose proof (preserves_llvmParams R R_refl R_trans checkExpr) as Hp.
  destruct op; simpl.
  - unfold SetBlock. frame.
  - apply Hex.
  - unfold Panic, CreateUnreachable. frame.
  - unfold Unreachable, CreateUnreachable. frame.
  - unfold Go. frame.
  - unfold Return, CreateRetVoid, CreateRet. frame.
  - unfold Extract. frame.
  - unfold Jump, CreateBr. frame.
  - unfold If, CreateCondBr. frame.
  - frame.
  - simpl in Hcb. frame.
Qed.

Lemma gated_run_ops checkExpr ops :
  (forall v t, Preserves R (checkExpr v t)) ->
  Forall (callbacks_preserve R) ops ->
  Preserves R (run_ops checkExpr ops).
Proof.
  intros Hc. induction 1 as [|op ops Hop _ IH]; simpl.
  - apply preserves_ret, R_refl.
  - apply preserves_bind; [exact R_trans | | intros _; exact IH].
    apply gated_run_op; assumption.
Qed.

End GatedFrame.

Lemma quiet_refl s : quiet s s.
Proof. intros H. auto. Qed.

Lemma quiet_trans s1 s2 s3 : quiet s1 s2 -> quiet s2 s3 -> quiet s1 s3.
Proof.
  unfold quiet. intros H12 H23 H1.
  destruct (H12 H1) as [H2 Hl2]. destruct (H23 H2) as [H3 Hl3].
  split; congruence.
Qed.

Lemma quiet_when_debug m : Preserves quiet (when_debug m).
Proof.
  intros s a s' H Hoff. unfold when_debug, get, bind in H. rewrite Hoff in H.
  inversion H; subst. auto.
Qed.

(** With the debug switch off no operation writes to the trace, and none
    turns the switch on: after any number of operations the trace is as it
    was. (The coercion behind Return and the callback of AddIncoming are
    client code and are taken to trace nothing themselves.) *)
Theorem no_trace_when_debug_off checkExpr ops s s' :
  (forall v t, Preserves quiet (checkExpr v t)) ->
  Forall (callbacks_preserve quiet) ops ->
  debugInstr s = false ->
  run_ops checkExpr ops s = Ok (tt, s') ->
  log s' = log s /\ debugInstr s' = false.
Proof.
  intros Hc Hcb Hoff Hrun.
  assert (Hq : Preserves quiet (run_ops checkExpr ops)).
  { apply gated_run_ops; try assumption.
    - exact quiet_refl.
    - exact quiet_trans.
    - intros s0 m H. auto.
    - intros s0 p H. auto.
    - intros s0 k H. auto.
    - exact quiet_when_debug. }
  destruct (Hq _ _ _ Hrun Hoff). auto.
Qed.

Lemma no_trace_when_debug_off_witness :
  log ex_final = log (ex_state [TBasic "int"] [istore 1]) /\
  debugInstr ex_final = false.
Proof.
  apply (no_trace_when_debug_off retype ex_ops (ex_state [TBasic "int"] [istore 1]) ex_final).
  - apply retype_preserves, quiet_refl.
  - repeat constructor.
  - reflexivity.
  - vm_compute. reflexivity.
Defined.

Section LoggedFrame.

(** A relation that allows for everything the operations do to the module,
    to the trace and to the position and current block of the builder. *)
Variable R : State -> State -> Prop.
Hypothesis R_refl : forall s, R s s.
Hypothesis R_trans : forall s1 s2 s3, R s1 s2 -> R s2 s3 -> R s1 s3.
Hypothesis R_md : forall s m, R s (set_md m s).
Hypothesis R_log : forall s l, R s (set_log l s).
Hypothesis R_impl : forall s p, R s (set_bld (with_impl p (bld s)) s).
Hypothesis R_blk : forall s k, R s (set_bld (with_blk k (bld s)) s).

Lemma logged_run_op checkExpr op :
  (forall v t, Preserves R (checkExpr v t)) ->
  callbacks_preserve R op ->
  Preserves R (run_op checkExpr op).
Proof.
  intros Hc Hcb. destruct op; simpl.
  - apply preserves_SetBlock; assumption.
  - apply preserves_SetBlockEx; assumption.
  - apply preserves_Panic; assumption.
  - apply preserves_Unreachable; assumption.
  - apply preserves_Go; assumption.
  - apply preserves_Return; assumption.
  - apply preserves_bind; [exact R_trans | | intros; apply preserves_ret, R_refl].
    apply preserves_Extract; assumption.
  - apply preserves_Jump; assumption.
  - apply preserves_If; assumption.
  - apply preserves_bind; [exact R_trans | | intros; apply preserves_ret, R_refl].
    apply preserves_Builder_Phi; assumption.
  - apply preserves_AddIncoming; assumption.
Qed.

Lemma logged_run_ops checkExpr ops :
  (forall v t, Preserves R (checkExpr v t)) ->
  Forall (callbacks_preserve R) ops ->
  Preserves R (run_ops checkExpr ops).
Proof.
  intros Hc. induction 1 as [|op ops Hop _ IH]; simpl.
  - apply preserves_ret, R_refl.
  - apply preserves_bind; [exact R_trans | | intros _; exact IH].
    apply logged_run_op; assumption.
Qed.

End LoggedFrame.

Lemma same_binding_refl s : same_binding s s.
Proof. repeat split. Qed.

Lemma same_binding_trans s1 s2 s3 :
  same_binding s1 s2 -> same_binding s2 s3 -> same_binding s1 s3.
Proof. unfold same_binding. intros (? & ? & ?) (? & ? & ?). repeat split; congruence. Qed.

(** A builder stays bound to its function, package and program: no
    operation assigns Func, Pkg or Prog, so the function the block checks
    compare against is the same throughout. (The coercion behind Return and
    the callback of AddIncoming are client code and are taken not to re-bind
    the builder.) *)
Theorem builder_binding_stable checkExpr ops s s' :
  (forall v t, Preserves same_binding (checkExpr v t)) ->
  Forall (callbacks_preserve same_binding) ops ->
  run_ops checkExpr ops s = Ok (tt, s') ->
  Func (bld s') = Func (bld s) /\ Pkg (bld s') = Pkg (bld s) /\
  Prog (bld s') = Prog (bld s).
Proof.
  intros Hc Hcb Hrun.
  assert (Hq : Preserves same_binding (run_ops checkExpr ops)).
  { apply logged_run_ops; try assumption.
    - exact same_binding_refl.
    - exact same_binding_trans.
    - intros s0 m. repeat split.
    - intros s0 l. repeat split.
    - intros s0 p. repeat split.
    - intros s0 k. repeat split. }
  exact (Hq _ _ _ Hrun).
Qed.

Lemma builder_binding_stable_witness :
  Func (bld ex_final) = Func (bld (ex_state [TBasic "int"] [istore 1])) /\
  Pkg (bld ex_final) = Pkg (bld (ex_state [TBasic "int"] [istore 1])) /\
  Prog (bld ex_final) = Prog (bld (ex_state [TBasic "int"] [istore 1])).
Proof.
  apply (builder_binding_stable retype ex_ops (ex_state [TBasic "int"] [istore 1]) ex_final).
  - apply retype_preserves, same_binding_refl.
  - repeat constructor.
  - vm_compute. reflexivity.
Defined.

Lemma same_module_refl s : same_module s s.
Proof. repeat split. Qed.

Lemma same_module_trans s1 s2 s3 :
  same_module s1 s2 -> same_module s2 s3 -> same_module s1 s3.
Proof. unfold same_module. intros (? & ? & ?) (? & ? & ?). repeat split; congruence. Qed.

(** Positioning never emits: a SetBlockEx or SetBlock that returns has left
    every instruction of every block where it was, and has created none. *)
Theorem positioning_keeps_module s blk pos setBlk s' :
  SetBlockEx blk pos setBlk s = Ok (tt, s') \/ SetBlock blk s = Ok (tt, s') ->
  md s' = md s /\ heap s' = heap s /\ funcs s' = funcs s.
Proof.
  assert (Himpl : forall s0 p, same_module s0 (set_bld (with_impl p (bld s0)) s0))
    by (intros; repeat split).
  assert (Hblk : forall s0 k, same_module s0 (set_bld (with_blk k (bld s0)) s0))
    by (intros; repeat split).
  assert (Hlog : forall s0 l, same_module s0 (set_log l s0))
    by (intros; repeat split).
  intros [H|H]; revert H.
  - apply (preserves_SetBlockEx same_module same_module_refl same_module_trans
             Himpl blk pos setBlk Hblk).
  - apply (preserves_SetBlock same_module same_module_refl same_module_trans
             Hlog Himpl blk Hblk).
Qed.

Lemma positioning_keeps_module_witness :
  md (positioned (IP_before 0 4) 10 true
        (ex_state [] [istore 1; icall 2 "fmt.init"; ibr 4 1])) =
    md (ex_state [] [istore 1; icall 2 "fmt.init"; ibr 4 1]) /\
  heap (positioned (IP_before 0 4) 10 true
          (ex_state [] [istore 1; icall 2 "fmt.init"; ibr 4 1])) =
    heap (ex_state [] [istore 1; icall 2 "fmt.init"; ibr 4 1]) /\
  funcs (positioned (IP_before 0 4) 10 true
           (ex_state [] [istore 1; icall 2 "fmt.init"; ibr 4 1])) =
    funcs (ex_state [] [istore 1; icall 2 "fmt.init"; ibr 4 1]).
Proof.
  apply (positioning_keeps_module
           (ex_state [] [istore 1; icall 2 "fmt.init"; ibr 4 1]) 10 afterInit true
           (positioned (IP_before 0 4) 10 true
              (ex_state [] [istore 1; icall 2 "fmt.init"; ibr 4 1]))).
  left. reflexivity.
Defined.

(** ** Emissions in a row *)

Lemma emitted_from_start s pre post :
  cursor_at s pre post -> emitted_from s pre post [] s.
Proof.
  intros (Hb & _ & _). unfold emitted_from, emitted. simpl.
  repeat split. rewrite Nat.add_0_r, insert_id by exact Hb.
  destruct (md s); reflexivity.
Qed.

Lemma emitted_from_traced s0 pre post ks e s :
  emitted_from s0 pre post ks s -> emitted_from s0 pre post ks (traced e s).
Proof. unfold traced. destruct (debugInstr s); auto. Qed.

(** An emission looks at the module and at the builder only. *)
Lemma emit_from s0 pre post ks k s :
  cursor_at s0 pre post ->
  emitted_from s0 pre post ks s ->
  exists v s', emit k s = Ok (v, s') /\ emitted_from s0 pre post (ks ++ [k]) s'.
Proof.
  intros Hc (Hmd & Hbld & Hheap & Hfuncs).
  pose proof (emit_next s0 k ks pre post Hc) as Hnext.
  unfold emit in *. rewrite Hmd, Hbld.
  replace (b_impl (bld (emitted ks pre post s0))) with (b_impl (bld s0)) in Hnext
    by reflexivity.
  destruct (bbs (md (emitted ks pre post s0)) !! ip_block (b_impl (bld s0)))
    as [l|]; [|discriminate].
  destruct (split_at (b_impl (bld s0)) l) as [[pre' post']|]; [|discriminate].
  eexists _, _. split; [reflexivity|].
  apply (f_equal (fun o => match o with
                           | Ok (_, st) => md st
                           | _ => md s0
                           end)) in Hnext.
  unfold emitted_from. repeat split; assumption.
Qed.

Lemma plain_op_from checkExpr s0 pre post ks op k s :
  cursor_at s0 pre post ->
  plain_kind s0 op = Some k ->
  emitted_from s0 pre post ks s ->
  exists s', run_op checkExpr op s = Ok (tt, s') /\
             emitted_from s0 pre post (ks ++ [k]) s'.
Proof.
  intros Hc Hk Hfrom. pose proof Hfrom as (Hmd & Hbld & Hheap & Hfuncs).
  destruct op; simpl in Hk; try discriminate.
  - (* Unreachable *)
    inversion Hk; subst k. simpl. unfold Unreachable, CreateUnreachable.
    destruct (emit_from _ _ _ _ IUnreachable _ Hc Hfrom) as (v & s' & He & Hs').
    exists s'. rewrite (bind_ok _ _ _ _ _ _ _ He). auto.
  - (* Jump *)
    destruct (heap s0 !! jmpb) as [r|] eqn:Hr; [|discriminate].
    destruct (Func (bld s0) =? fn r) eqn:Hf; [|discriminate].
    inversion Hk; subst k. simpl.
    unfold Jump, get, deref. unfold bind at 1 2.
    rewrite Hheap, Hbld, Hr, Hf. cbv beta iota delta [negb].
    rewrite (bind_ok _ _ _ _ _ _ _ (when_debug_logf _ s)).
    unfold CreateBr.
    destruct (emit_from _ _ _ _ (IBr (first r)) _ Hc
                (emitted_from_traced _ _ _ _ (LogJump (idx r)) _ Hfrom))
      as (v & s' & He & Hs').
    exists s'. rewrite (bind_ok _ _ _ _ _ _ _ He). auto.
  - (* If *)
    destruct (heap s0 !! thenb) as [t|] eqn:Ht; [|discriminate].
    destruct (heap s0 !! elseb) as [e|] eqn:He0; [|discriminate].
    destruct (Func (bld s0) =? fn t) eqn:Hft; [|discriminate].
    destruct (Func (bld s0) =? fn e) eqn:Hfe; [|discriminate].
    inversion Hk; subst k. simpl.
    unfold If, get, deref. unfold bind at 1 2.
    rewrite Hheap, Hbld, Ht, Hft. cbv beta iota delta [negb].
    unfold bind at 1. rewrite Hheap, He0, Hfe. cbv beta iota delta [negb].
    rewrite (bind_ok _ _ _ _ _ _ _ (when_debug_logf _ s)).
    unfold CreateCondBr.
    destruct (emit_from _ _ _ _ (ICondBr (impl cond) (first t) (first e)) _ Hc
                (emitted_from_traced _ _ _ _ (LogIf (impl cond) (idx t) (idx e)) _ Hfrom))
      as (v & s' & He & Hs').
    exists s'. rewrite (bind_ok _ _ _ _ _ _ _ He). auto.
  - (* Phi *)
    inversion Hk; subst k. simpl. unfold Builder_Phi, CreatePHI.
    destruct (emit_from _ _ _ _ (IPhi t []) _ Hc Hfrom) as (v & s' & He & Hs').
    exists s'.
    rewrite (bind_ok _ _ _ _ s (mkPhi (mkExpr v t)) s')
      by (rewrite (bind_ok _ _ _ _ _ _ _ He); reflexivity).
    auto.
Qed.

Lemma plain_ops_from checkExpr s0 pre post ops :
  cursor_at s0 pre post ->
  forall ks' ks s,
    plain_kinds s0 ops = Some ks' ->
    emitted_from s0 pre post ks s ->
    exists s', run_ops checkExpr ops s = Ok (tt, s') /\
               emitted_from s0 pre post (ks ++ ks') s'.
Proof.
  intros Hc. induction ops as [|op ops IH]; intros ks' ks s Hks Hfrom; simpl in *.
  - inversion Hks. rewrite app_nil_r. eauto.
  - destruct (plain_kind s0 op) as [k|] eqn:Hk; [|discriminate].
    destruct (plain_kinds s0 ops) as [ks1|] eqn:Hks1; [|discriminate].
    inversion Hks; subst ks'.
    destruct (plain_op_from checkExpr _ _ _ _ _ _ _ Hc Hk Hfrom) as (s1 & Hrun & Hfrom1).
    destruct (IH ks1 (ks ++ [k]) s1 eq_refl Hfrom1) as (s' & Hrest & Hfrom').
    exists s'. rewrite (bind_ok _ _ _ _ _ _ _ Hrun).
    rewrite <- app_assoc in Hfrom'. auto.
Qed.

(** Any sequence of Jump, If, Unreachable and Phi calls whose targets are
    blocks of the builder's function goes through, and inserts one
    instruction per call, in call order, as one run at the cursor: the
    instructions before the cursor and after it, all other blocks, the
    logical blocks and the builder are as they were. No call looks at what
    was emitted before it, so nothing keeps an instruction from following a
    terminator. *)
Theorem plain_emissions_accumulate checkExpr s pre post ops ks :
  cursor_at s pre post ->
  plain_kinds s ops = Some ks ->
  exists s',
    run_ops checkExpr ops s = Ok (tt, s') /\
    md s' = md (emitted ks pre post s) /\
    bld s' = bld s /\ heap s' = heap s /\ funcs s' = funcs s.
Proof.
  intros Hc Hks.
  destruct (plain_ops_from checkExpr s pre post ops Hc ks [] s Hks
              (emitted_from_start _ _ _ Hc)) as (s' & Hrun & Hfrom).
  exists s'. split; [exact Hrun | exact Hfrom].
Qed.

Lemma plain_emissions_accumulate_witness :
  exists s',
    run_ops retype
      [DoPhi (TBasic "int"); DoUnreachable; DoJump 11;
       DoIf (mkExpr (VConst 1) (TBasic "bool")) 10 11]
      (ex_state [] [istore 1]) = Ok (tt, s') /\
    md s' = md (emitted [IPhi (TBasic "int") []; IUnreachable; IBr 3; ICondBr (VConst 1) 0 3]
                        [istore 1] [] (ex_state [] [istore 1])) /\
    bld s' = bld (ex_state [] [istore 1]) /\
    heap s' = heap (ex_state [] [istore 1]) /\
    funcs s' = funcs (ex_state [] [istore 1]).
Proof.
  apply (plain_emissions_accumulate retype (ex_state [] [istore 1]) [istore 1] []
           [DoPhi (TBasic "int"); DoUnreachable; DoJump 11;
            DoIf (mkExpr (VConst 1) (TBasic "bool")) 10 11]).
  - repeat split.
  - reflexivity.
Defined.
